(** * multi-llm-api-toolkit: the stream normalizer and the vendor adapters

    A shallow embedding of [llm-api-calls.js].  JavaScript strings are
    modelled as [string] (sequences of code units below 256), the values
    a chunk field can hold as [jsval], generators as the sequence of
    values they yield together with the way they end, and thrown errors
    as explicit results. *)

From Stdlib Require Import String Ascii List Arith Lia Bool ZArith QArith.
From Stdlib Require Import DecimalString.
From Equations Require Import Equations.
Import ListNotations.
Open Scope string_scope.
Open Scope nat_scope.

(** ** JavaScript values and operators used by the source *)

Module Js.

(** What a text field of a vendor chunk can hold. *)
Inductive jsval : Type :=
| JUndefined
| JNull
| JStr (s : string).

(** Truthiness, as tested by [if (x)], [x && ..] and [x || ..]. *)
Definition truthy (v : jsval) : bool :=
  match v with
  | JStr EmptyString => false
  | JStr _ => true
  | _ => false
  end.

(** The string a value turns into under [+] with a string operand and
    under [+=] on a string. *)
Definition to_str (v : jsval) : string :=
  match v with
  | JUndefined => "undefined"
  | JNull => "null"
  | JStr s => s
  end.

(** [a || b] on strings. *)
Definition or_str (a b : string) : string :=
  match a with
  | EmptyString => b
  | _ => a
  end.

(** [(s.match(/pat/g) || []).length] for a literal pattern: the scan goes
    left to right and resumes after the end of each match. [skip] is the
    number of code units still covered by the last match. *)
Fixpoint count_scan (pat s : string) (skip : nat) : nat :=
  match s with
  | EmptyString => 0
  | String _ rest =>
      match skip with
      | S k => count_scan pat rest k
      | O =>
          if prefix pat s
          then S (count_scan pat rest (String.length pat - 1))
          else count_scan pat rest 0
      end
  end.

Definition match_count (pat s : string) : nat := count_scan pat s 0.

End Js.

(** ** standardizeStream *)

Module Normalizer.
Import Js.

(** [chunk.choices[0].delta] of the OpenAI wire shape. *)
Record Delta : Type := mkDelta {
  content : jsval;
  reasoning_content : jsval
}.

(** A choice; [delta] is [None] when the property is missing. *)
Record Choice : Type := mkChoice { delta : option Delta }.

(** A raw vendor chunk: the OpenAI shape has [choices], the Gemini shape
    has [text]. *)
Record Chunk : Type := mkChunk {
  choices : option (list Choice);
  text : jsval
}.

(** The canonical events:
    [{ type: 'content_block_delta', delta: { text } }] and
    [{ type: 'reasoning_content', reasoning_content }]. *)
Inductive event : Type :=
| ContentDelta (t : jsval)
| ReasoningDelta (t : jsval).

Definition event_text (e : event) : string :=
  match e with
  | ContentDelta t => to_str t
  | ReasoningDelta t => to_str t
  end.

(** Outcome of the loop body for one chunk: the new value of the
    captured [response] and the events yielded, or a thrown TypeError. *)
Inductive body_result : Type :=
| Ok (response : string) (yielded : list event)
| Threw.

(** The body of [for await (const chunk of stream)]. *)
Definition process_chunk (response : string) (chunk : Chunk) : body_result :=
  match choices chunk with
  | Some (choice :: _) =>
      match delta choice with
      | None => Threw
      | Some d =>
          let textsofar :=
            or_str (or_str (response ++ to_str (content d))
                           ("" ++ to_str (reasoning_content d))) "" in
          let thinkOpens := match_count "<think>" textsofar in
          let thinkCloses := match_count "</think>" textsofar in
          let isInThinkTag := thinkCloses <? thinkOpens in
          let originalThinkCloses := match_count "</think>" response in
          let isnotedgecase := originalThinkCloses =? thinkCloses in
          if truthy (content d) && negb isInThinkTag && isnotedgecase then
            Ok (response ++ to_str (content d)) [ContentDelta (content d)]
          else if truthy (reasoning_content d) || isInThinkTag
                  || negb isnotedgecase then
            let '(response1, out1) :=
              if negb (truthy (reasoning_content d))
              then (response ++ to_str (content d),
                    [ReasoningDelta (content d)])
              else (response, []) in
            let '(response2, out2) :=
              if truthy (reasoning_content d)
              then (response1 ++ to_str (reasoning_content d),
                    [ReasoningDelta (reasoning_content d)])
              else (response1, []) in
            Ok response2 (out1 ++ out2)%list
          else Ok response []
      end
  | _ =>
      if truthy (text chunk)
      then Ok response [ContentDelta (text chunk)]
      else Ok response []
  end.

(** How the generator ends. *)
Inductive ending : Type :=
| Exhausted
| StreamProcessingError.

(** The generator run over a finite raw stream, from a given value of
    [response]: events yielded, final [response], ending. *)
Fixpoint run (response : string) (stream : list Chunk)
  : list event * string * ending :=
  match stream with
  | [] => ([], response, Exhausted)
  | chunk :: rest =>
      match process_chunk response chunk with
      | Threw => ([], response, StreamProcessingError)
      | Ok response' out =>
          let '(evs, final, e) := run response' rest in
          ((out ++ evs)%list, final, e)
      end
  end.

(** [standardizeStream(stream)] consumed to its end: [response] starts
    empty. *)
Definition standardizeStream (stream : list Chunk) : list event * ending :=
  let '(evs, _, e) := run "" stream in (evs, e).

(** A chunk [{ choices: [{ delta: { content, reasoning_content } }] }]. *)
Definition delta_chunk (c r : jsval) : Chunk :=
  mkChunk (Some [mkChoice (Some (mkDelta c r))]) JUndefined.

(** A chunk in [choices[0].delta.content] form. *)
Definition content_chunk (s : string) : Chunk :=
  delta_chunk (JStr s) JUndefined.

(** The tag balance after [frag] is appended to [response]. *)
Definition isInThinkTag (response frag : string) : bool :=
  match_count "</think>" (response ++ frag)
    <? match_count "<think>" (response ++ frag).

Definition isnotedgecase (response frag : string) : bool :=
  match_count "</think>" response =? match_count "</think>" (response ++ frag).

Definition visible (response frag : string) : bool :=
  negb (isInThinkTag response frag) && isnotedgecase response frag.

(** The text of the events, in order. *)
Definition texts (evs : list event) : string :=
  fold_right (fun e s => event_text e ++ s) "" evs.

Definition has_choices (chunk : Chunk) : bool :=
  match choices chunk with
  | Some (_ :: _) => true
  | _ => false
  end.

End Normalizer.

(** ** asyncIteratorFromReader *)

Module LineReader.

(** A value together with the equation that says what it is, for the
    termination proofs of the loops below. *)
Definition inspect {A : Type} (a : A) : { b : A | a = b } :=
  exist _ a eq_refl.

(** The line feed the buffer is split at. *)
Definition LF : ascii := "010"%char.

(** [s.indexOf(c)], with [None] for -1. *)
Fixpoint indexOf (c : ascii) (s : string) : option nat :=
  match s with
  | EmptyString => None
  | String a rest =>
      if Ascii.eqb a c then Some 0 else option_map S (indexOf c rest)
  end.

(** [s.slice(b, e)] and [s.slice(b)] for indices within the string. *)
Definition slice (s : string) (b e : nat) : string := substring b (e - b) s.

Definition slice_from (s : string) (b : nat) : string :=
  substring b (String.length s - b) s.

(** White space and line terminators among the code units below 256,
    as removed by [trim]. *)
Definition is_space (c : ascii) : bool :=
  let n := nat_of_ascii c in
  ((9 <=? n) && (n <=? 13)) || (n =? 32) || (n =? 160).

Fixpoint trimStart (s : string) : string :=
  match s with
  | EmptyString => EmptyString
  | String c rest => if is_space c then trimStart rest else s
  end.

Fixpoint trimEnd (s : string) : string :=
  match s with
  | EmptyString => EmptyString
  | String c rest =>
      match trimEnd rest with
      | EmptyString => if is_space c then EmptyString else String c EmptyString
      | kept => String c kept
      end
  end.

Definition trim (s : string) : string := trimEnd (trimStart s).

(** What [reader.read()] resolves or rejects with; the values are taken
    after [decoder.decode(value, { stream: true })]. An empty queue
    resolves with [done]. *)
Inductive read_result : Type :=
| Value (value : string)
| ReadError (message : string).

Lemma length_append (s t : string) :
  String.length (s ++ t) = String.length s + String.length t.
Proof. induction s as [|c s IH]; simpl; [|rewrite IH]; reflexivity. Qed.

Lemma append_assoc (s t u : string) : (s ++ t) ++ u = s ++ (t ++ u).
Proof. induction s as [|c s IH]; simpl; [|rewrite IH]; reflexivity. Qed.

Lemma append_nil_r (s : string) : s ++ "" = s.
Proof. induction s as [|c s IH]; simpl; [|rewrite IH]; reflexivity. Qed.

Section Parser.

(** The parsed JSON values and [JSON.parse], [None] when it throws. *)
Variable J : Type.
Variable JSON_parse : string -> option J.

(** How the inner [while (true)] leaves: at the [yield], at the
    [return], or at the [break]. *)
Inductive drain_result : Type :=
| DYield (parsed : J) (buffer : string)
| DReturn
| DBreak (buffer : string).

Lemma substring_length_le (n m : nat) (s : string) :
  String.length (substring n m s) <= m.
Proof.
  revert n m; induction s as [|c s IH]; intros [|n] [|m]; simpl; try lia.
  - specialize (IH 0 m). lia.
  - apply IH.
  - apply IH.
Qed.

Lemma indexOf_lt (c : ascii) (s : string) (i : nat) :
  indexOf c s = Some i -> i < String.length s.
Proof.
  revert i; induction s as [|a s IH]; simpl; intros i H; [discriminate|].
  destruct (Ascii.eqb a c).
  - injection H as <-. lia.
  - destruct (indexOf c s) as [j|]; [|discriminate].
    injection H as <-. specialize (IH j eq_refl). lia.
Qed.

Lemma slice_from_shorter (s : string) (i : nat) :
  indexOf LF s = Some i ->
  String.length (slice_from s (i + 1)) < String.length s.
Proof.
  intros H. apply indexOf_lt in H. unfold slice_from.
  pose proof (substring_length_le (i + 1) (String.length s - (i + 1)) s).
  lia.
Qed.

(** The loop "process complete lines from the buffer", up to the first
    point where control leaves it. *)
Equations drain (buffer : string) : drain_result
  by wf (String.length buffer) lt :=
  drain buffer with inspect (indexOf LF buffer) := {
    | exist _ None _ => DBreak buffer
    | exist _ (Some lineEnd) found =>
        let line := trim (slice buffer 0 lineEnd) in
        if prefix "data: " line then
          let data := slice_from line 6 in
          if String.eqb data "[DONE]" then DReturn
          else
            match JSON_parse data with
            | Some parsed => DYield parsed (slice_from buffer (lineEnd + 1))
            | None => drain (slice_from buffer (lineEnd + 1))
            end
        else drain (slice_from buffer (lineEnd + 1)) }.
Next Obligation. apply slice_from_shorter; assumption. Qed.
Next Obligation. apply slice_from_shorter; assumption. Qed.


(** The loop written out: one iteration, then the loop again. *)
Lemma drain_eq (buffer : string) :
  drain buffer =
  match indexOf LF buffer with
  | None => DBreak buffer
  | Some lineEnd =>
      let line := trim (slice buffer 0 lineEnd) in
      if prefix "data: " line then
        let data := slice_from line 6 in
        if String.eqb data "[DONE]" then DReturn
        else
          match JSON_parse data with
          | Some parsed => DYield parsed (slice_from buffer (lineEnd + 1))
          | None => drain (slice_from buffer (lineEnd + 1))
          end
      else drain (slice_from buffer (lineEnd + 1))
  end.
Proof.
  rewrite drain_equation_1. unfold inspect.
  assert (G : forall o (e : indexOf LF buffer = o),
    drain_unfold_clause_1 buffer (exist _ o e) =
    match o with
    | None => DBreak buffer
    | Some lineEnd =>
        let line := trim (slice buffer 0 lineEnd) in
        if prefix "data: " line then
          let data := slice_from line 6 in
          if String.eqb data "[DONE]" then DReturn
          else
            match JSON_parse data with
            | Some parsed => DYield parsed (slice_from buffer (lineEnd + 1))
            | None => drain (slice_from buffer (lineEnd + 1))
            end
        else drain (slice_from buffer (lineEnd + 1))
    end).
  { intros [i|] e; simp drain; reflexivity. }
  apply G.
Qed.

Lemma drain_yield_shorter (buffer : string) :
  forall parsed rest, drain buffer = DYield parsed rest ->
  String.length rest < String.length buffer.
Proof.
  remember (String.length buffer) as n eqn:Hn.
  revert buffer Hn.
  induction n as [n IH] using lt_wf_ind; intros buffer Hn parsed rest.
  rewrite drain_eq.
  destruct (indexOf LF buffer) as [lineEnd|] eqn:found; [|discriminate].
  pose proof (slice_from_shorter buffer lineEnd found) as Hlt.
  cbv zeta.
  destruct (prefix _ _).
  - destruct (String.eqb _ _); [discriminate|].
    destruct (JSON_parse _).
    + intros H; injection H as _ <-. lia.
    + intros H. eapply IH in H; [|rewrite Hn; exact Hlt|reflexivity]. lia.
  - intros H. eapply IH in H; [|rewrite Hn; exact Hlt|reflexivity]. lia.
Qed.

Lemma drain_break (buffer : string) :
  forall rest, drain buffer = DBreak rest ->
  String.length rest <= String.length buffer /\ indexOf LF rest = None.
Proof.
  remember (String.length buffer) as n eqn:Hn.
  revert buffer Hn.
  induction n as [n IH] using lt_wf_ind; intros buffer Hn rest.
  rewrite drain_eq.
  destruct (indexOf LF buffer) as [lineEnd|] eqn:found.
  - pose proof (slice_from_shorter buffer lineEnd found) as Hlt.
    cbv zeta.
    destruct (prefix _ _).
    + destruct (String.eqb _ _); [discriminate|].
      destruct (JSON_parse _); [discriminate|].
      intros H. eapply IH in H; [|rewrite Hn; exact Hlt|reflexivity].
      destruct H; split; [lia|assumption].
    + intros H. eapply IH in H; [|rewrite Hn; exact Hlt|reflexivity].
      destruct H; split; [lia|assumption].
  - intros H; injection H as <-. split; [lia|assumption].
Qed.

(** What is left of the generator between two requests of its consumer:
    not started, parked at [yield parsed] with the live [buffer], or
    finished. *)
Inductive gen_state : Type :=
| SuspendedStart
| SuspendedYield (buffer : string)
| Completed.

(** The generator object together with the reader it closes over:
    [pending] is what [reader.read()] has yet to deliver, [cancelled]
    counts the calls of [reader.cancel()]. *)
Record iterator : Type := mkIterator {
  state : gen_state;
  pending : list read_result;
  cancelled : nat
}.

(** The requests of the iteration protocol and what they resolve to. *)
Inductive request : Type :=
| Next
| Return
| Throw (message : string).

Inductive reply : Type :=
| Item (parsed : J)
| Done
| Raised (message : string).

(** Where the body stops when it is run from some point on. *)
Inductive stop : Type :=
| Yielded (parsed : J) (buffer : string) (rest : list read_result)
| Returned
| Thrown (message : string).

(** The outer [while (true)] from its head, with [buffer] live. *)
Fixpoint read_loop (buffer : string) (reads : list read_result) : stop :=
  match reads with
  | [] => Returned
  | ReadError message :: _ => Thrown message
  | Value value :: rest =>
      match drain (buffer ++ value) with
      | DYield parsed buffer' => Yielded parsed buffer' rest
      | DReturn => Returned
      | DBreak buffer' => read_loop buffer' rest
      end
  end.

(** The body from just after the [yield]: the rest of the inner loop,
    then the outer loop. *)
Definition after_yield (buffer : string) (reads : list read_result) : stop :=
  match drain buffer with
  | DYield parsed buffer' => Yielded parsed buffer' reads
  | DReturn => Returned
  | DBreak buffer' => read_loop buffer' reads
  end.

(** The [finally] block runs whenever control leaves the [try]. *)
Definition finally (it : iterator) : iterator :=
  mkIterator Completed [] (S (cancelled it)).

Definition settle (it : iterator) (s : stop) : iterator * reply :=
  match s with
  | Yielded parsed buffer rest =>
      (mkIterator (SuspendedYield buffer) rest (cancelled it), Item parsed)
  | Returned => (finally it, Done)
  | Thrown message => (finally it, Raised message)
  end.

(** One request served by the generator. A generator that has not
    started finishes on [Return] and [Throw] without running its body;
    a [Throw] at the [yield] lands in the [catch (e)] around it, after
    which the inner loop goes on. *)
Definition step (it : iterator) (rq : request) : iterator * reply :=
  match state it, rq with
  | SuspendedStart, Next => settle it (read_loop "" (pending it))
  | SuspendedStart, Return =>
      (mkIterator Completed (pending it) (cancelled it), Done)
  | SuspendedStart, Throw message =>
      (mkIterator Completed (pending it) (cancelled it), Raised message)
  | SuspendedYield buffer, Next => settle it (after_yield buffer (pending it))
  | SuspendedYield buffer, Throw _ =>
      settle it (after_yield buffer (pending it))
  | SuspendedYield _, Return => (finally it, Done)
  | Completed, Next => (it, Done)
  | Completed, Return => (it, Done)
  | Completed, Throw message => (it, Raised message)
  end.

(** [asyncIteratorFromReader(reader)]: the generator object, not yet
    started. *)
Definition asyncIteratorFromReader (reads : list read_result) : iterator :=
  mkIterator SuspendedStart reads 0.

(** Requests served one after the other. *)
Fixpoint serve (it : iterator) (rqs : list request) : iterator :=
  match rqs with
  | [] => it
  | rq :: more => serve (fst (step it rq)) more
  end.

(** Text still to be looked at: bounds the work left. *)
Fixpoint queued (reads : list read_result) : nat :=
  match reads with
  | [] => 0
  | Value value :: rest => S (String.length value + queued rest)
  | ReadError _ :: rest => S (queued rest)
  end.

Definition weight (it : iterator) : nat :=
  match state it with
  | SuspendedStart => S (queued (pending it))
  | SuspendedYield buffer => String.length buffer + queued (pending it)
  | Completed => 0
  end.

Lemma read_loop_yield_lighter (reads : list read_result) :
  forall buffer parsed buffer' rest,
  read_loop buffer reads = Yielded parsed buffer' rest ->
  String.length buffer' + queued rest < String.length buffer + queued reads.
Proof.
  induction reads as [|[value|message] reads IH]; simpl;
    intros buffer parsed buffer' rest H; try discriminate.
  destruct (drain (buffer ++ value)) as [p b| |b] eqn:E.
  - injection H as -> -> ->.
    apply drain_yield_shorter in E. rewrite length_append in E. lia.
  - discriminate.
  - apply IH in H.
    apply drain_break in E. destruct E as [E _].
    rewrite length_append in E. lia.
Qed.

Lemma after_yield_lighter (buffer : string) (reads : list read_result) :
  forall parsed buffer' rest,
  after_yield buffer reads = Yielded parsed buffer' rest ->
  String.length buffer' + queued rest < String.length buffer + queued reads.
Proof.
  unfold after_yield; intros parsed buffer' rest H.
  destruct (drain buffer) as [p b| |b] eqn:E.
  - injection H as -> -> ->. apply drain_yield_shorter in E. lia.
  - discriminate.
  - apply read_loop_yield_lighter in H. apply drain_break in E. lia.
Qed.

Lemma next_lighter (it it' : iterator) (parsed : J) :
  step it Next = (it', Item parsed) -> weight it' < weight it.
Proof.
  destruct it as [[|buffer|] reads n]; unfold step, weight; simpl.
  - destruct (read_loop "" reads) as [p b r| |m] eqn:E; simpl;
      intros H; try discriminate.
    injection H as <- _. simpl. apply read_loop_yield_lighter in E.
    simpl in E. lia.
  - destruct (after_yield buffer reads) as [p b r| |m] eqn:E; simpl;
      intros H; try discriminate.
    injection H as <- _. simpl. apply after_yield_lighter in E. lia.
  - discriminate.
Qed.

(** [for await (const parsed of it)] run until the iterator says it is
    done or throws: the values received, the last reply, and the
    iterator as it is left. *)
Equations consume (it : iterator) : list J * reply * iterator
  by wf (weight it) lt :=
  consume it with inspect (step it Next) := {
    | exist _ (it', Item parsed) served =>
        let r := consume it' in (parsed :: fst (fst r), snd (fst r), snd r)
    | exist _ (it', Done) _ => ([], Done, it')
    | exist _ (it', Raised message) _ => ([], Raised message, it') }.
Next Obligation. eapply next_lighter; eassumption. Qed.

Lemma consume_eq (it : iterator) :
  consume it =
  match step it Next with
  | (it', Item parsed) =>
      let r := consume it' in (parsed :: fst (fst r), snd (fst r), snd r)
  | (it', Done) => ([], Done, it')
  | (it', Raised message) => ([], Raised message, it')
  end.
Proof.
  rewrite consume_equation_1. unfold inspect.
  assert (G : forall o (e : step it Next = o),
    consume_unfold_clause_1 it (exist _ o e) =
    match o with
    | (it', Item parsed) =>
        let r := consume it' in (parsed :: fst (fst r), snd (fst r), snd r)
    | (it', Done) => ([], Done, it')
    | (it', Raised message) => ([], Raised message, it')
    end).
  { intros [it' [p| |m]] e; simp consume; reflexivity. }
  apply G.
Qed.

(** *** The wire protocol, lines taken without surrounding white space

    The payload is cut into its newline-terminated lines; a line counts
    without the white space around it.  A line [data: [DONE]] ends the
    stream, a line [data: <json>] contributes the parsed value when the
    JSON is well formed, every other line contributes nothing. *)

Fixpoint spec_lines (payload : string) : list string :=
  match payload with
  | EmptyString => []
  | String c rest =>
      if Ascii.eqb c LF then EmptyString :: spec_lines rest
      else
        match spec_lines rest with
        | [] => []
        | line :: more => String c line :: more
        end
  end.

Fixpoint spec_events (lines : list string) : list J :=
  match lines with
  | [] => []
  | l :: more =>
      let line := trim l in
      if prefix "data: " line then
        let payload := slice_from line 6 in
        if String.eqb payload "[DONE]" then []
        else
          match JSON_parse payload with
          | Some parsed => parsed :: spec_events more
          | None => spec_events more
          end
      else spec_events more
  end.

Definition spec_stream (payload : string) : list J :=
  spec_events (spec_lines payload).

(** *** The wire protocol, lines taken to the letter

    As the interface description words it, with no white space set
    aside: a line is a data line only when it is prefixed [data: ], it
    ends the stream only when it is [data: [DONE]], and blank lines and
    all other lines are ignored. *)

Fixpoint worded_events (lines : list string) : list J :=
  match lines with
  | [] => []
  | line :: more =>
      if prefix "data: " line then
        let payload := slice_from line 6 in
        if String.eqb payload "[DONE]" then []
        else
          match JSON_parse payload with
          | Some parsed => parsed :: worded_events more
          | None => worded_events more
          end
      else worded_events more
  end.

Definition worded_stream (payload : string) : list J :=
  worded_events (spec_lines payload).

End Parser.

Arguments DYield {J}.
Arguments DReturn {J}.
Arguments DBreak {J}.
Arguments Item {J}.
Arguments Done {J}.
Arguments Raised {J}.
Arguments Yielded {J}.
Arguments Returned {J}.
Arguments Thrown {J}.
Arguments drain {J}.
Arguments read_loop {J}.
Arguments after_yield {J}.
Arguments settle {J}.
Arguments step {J}.
Arguments serve {J}.
Arguments consume {J}.
Arguments spec_events {J}.
Arguments spec_stream {J}.
Arguments worded_events {J}.
Arguments worded_stream {J}.

(** The text delivered by a run of reads that all succeed. *)
Definition joined (values : list string) : string :=
  fold_right append EmptyString values.

(** The payload of the documented example: the line
    [data: {"text":"a"}], a blank line, the line [data: [DONE]]. *)
Definition nl : string := String LF EmptyString.
Definition quote : string := String "034"%char EmptyString.
Definition sample_object : string :=
  "{" ++ quote ++ "text" ++ quote ++ ":" ++ quote ++ "a" ++ quote ++ "}".
Definition sample_payload : string :=
  "data: " ++ sample_object ++ nl ++ nl ++ "data: [DONE]" ++ nl.

(** A stand-in for [JSON.parse] that knows the object of the example:
    flat objects are lists of key and string value. *)
Definition sample_parse (data : string) : option (list (string * string)) :=
  if String.eqb data sample_object then Some [("text", "a")] else None.


End LineReader.

(** ** The vendor call adapters *)

Module Chat.

(** [{ media_type, url }] *)
Record ImageData : Type := mkImage {
  media_type : string;
  url : string
}.

(** The [image] property of a message: missing, [null], or an array. *)
Inductive image_field : Type :=
| ImageUndefined
| ImageNull
| ImageList (imgs : list ImageData).

(** A message of the chat context. *)
Record Message : Type := mkMessage {
  role : string;
  content : string;
  image : image_field
}.

(** A block [{ text }] of the system message. *)
Record SystemBlock : Type := mkSystemBlock { text : string }.

(** How an awaited call settles. *)
Inductive outcome (A : Type) : Type :=
| Resolved (v : A)
| Rejected (message : string).
Arguments Resolved {A}.
Arguments Rejected {A}.

(** An HTTP response with its body of type [B]. *)
Record Response (B : Type) : Type := mkResponse {
  ok : bool;
  status : nat;
  body : B
}.
Arguments mkResponse {B}.
Arguments ok {B}.
Arguments status {B}.
Arguments body {B}.

(** A number inside a template literal. *)
Definition show (n : nat) : string := NilEmpty.string_of_uint (Nat.to_uint n).

(** [temperature = 0.7] in the parameter lists. *)
Definition default_temperature : Q := 7 # 10.

Definition or_default (temperature : option Q) : Q :=
  match temperature with
  | Some t => t
  | None => default_temperature
  end.

(** [msg.image && msg.image.length > 0] *)
Definition has_image (msg : Message) : bool :=
  match image msg with
  | ImageList (_ :: _) => true
  | _ => false
  end.

End Chat.

(** *** formatMessages, shared by the OpenAI-compatible adapters *)

Module OpenAIFormat.
Import Chat.

Inductive part : Type :=
| image_url (url_ : string) (detail : string)
| text_part (text_ : string).

Inductive body_content : Type :=
| Plain (s : string)
| Parts (ps : list part).

Record message : Type := mkMsg {
  msg_role : string;
  msg_content : body_content
}.

Definition blank_line : string := String LineReader.LF (String LineReader.LF "").

Definition formatMessages (chatContext : list Message)
    (systemMessage : list SystemBlock) : list message :=
  let fullSystemMessage := String.concat blank_line (map text systemMessage) in
  mkMsg "system" (Plain fullSystemMessage)
  :: map (fun msg =>
            match image msg with
            | ImageList ((_ :: _) as imgs) =>
                mkMsg (role msg)
                  (Parts (map (fun img => image_url (url img) "high") imgs
                          ++ [text_part (content msg)])%list)
            | _ => mkMsg (role msg) (Plain (content msg))
            end) chatContext.

End OpenAIFormat.

(** *** makeGrokApiCall *)

Module Grok.
Import Chat OpenAIFormat.

(** [new OpenAI({ apiKey, baseURL })] *)
Record client : Type := mkClient {
  apiKey_ : string;
  baseURL : string
}.

(** The argument of [openai.chat.completions.create]. *)
Record params : Type := mkParams {
  model_ : string;
  messages_ : list message;
  stream_ : bool
}.

(** The client and the request built before the vendor is called. *)
Definition request (apiKey : string) (chatContext : list Message)
    (systemMessage : list SystemBlock) (model maxTokens : Z)
    (temperature : option Q) : client * params :=
  let openai := mkClient apiKey "https://api.x.ai/v1" in
  let messages := formatMessages chatContext systemMessage in
  let hasImage := existsb has_image chatContext in
  let modelName := if hasImage then "grok-2-vision-1212" else "grok-2-1212" in
  (openai, mkParams modelName messages true).

Section Call.

(** The vendor SDK: what [create] settles to for a client and a request. *)
Variable create : client -> params -> outcome (list Normalizer.Chunk).

Definition makeGrokApiCall (apiKey : string) (chatContext : list Message)
    (systemMessage : list SystemBlock) (model maxTokens : Z)
    (temperature : option Q)
  : outcome (list Normalizer.event * Normalizer.ending * string) :=
  let '(openai, rq) :=
    request apiKey chatContext systemMessage model maxTokens temperature in
  match create openai rq with
  | Resolved stream => Resolved (Normalizer.standardizeStream stream, model_ rq)
  | Rejected message => Rejected ("Grok API Error: " ++ message)
  end.

End Call.
End Grok.

(** *** makeClaudeApiCall *)

Module Claude.
Import Chat.

Inductive block : Type :=
| image_block (media_type_ : string) (data : string)
| text_block (text_ : string).

Inductive body_content : Type :=
| Plain (s : string)
| Blocks (bs : list block).

Record message : Type := mkMsg {
  msg_role : string;
  msg_content : body_content
}.

(** The argument of [anthropic.beta.promptCaching.messages.create];
    [thinking] holds [budget_tokens] when the block is present. *)
Record params : Type := mkParams {
  model_ : string;
  max_tokens : Z;
  temperature_ : Q;
  messages_ : list message;
  stream_ : bool;
  system_ : string;
  thinking : option Z
}.

(** A promise as [Promise.all] sees it: a rejection raised before the
    first [await] is there at once, one that needs the network comes
    later. *)
Inductive promise (A : Type) : Type :=
| Fulfilled (v : A)
| RejectedNow (message : string)
| RejectedLater (message : string).
Arguments Fulfilled {A}.
Arguments RejectedNow {A}.
Arguments RejectedLater {A}.

Section Call.

(** The raw vendor stream. *)
Variable Stream : Type.
(** [fetch(imageUrl)] with the bytes of the body. *)
Variable fetch : string -> outcome (Response string).
(** [Buffer.from(binaryData).toString('base64')] *)
Variable base64 : string -> string.
(** The vendor SDK. *)
Variable create : string -> params -> outcome Stream.
(** The message of the TypeError for reading [map] of [undefined]. *)
Variable TypeError_map : string.
(** Which of several network failures is the first to arrive. *)
Variable first_of : list string -> string.

Definition convertToBase64 (imageUrl : string) : outcome string :=
  match fetch imageUrl with
  | Rejected message => Rejected ("Base64 Conversion Error: " ++ message)
  | Resolved response =>
      if negb (ok response)
      then Rejected ("Base64 Conversion Error: "
                     ++ "HTTP error! status: " ++ show (status response))
      else Resolved (base64 (body response))
  end.

(** The image blocks of one message, or the failures of its fetches. *)
Fixpoint image_blocks (imgs : list ImageData) : list block * list string :=
  match imgs with
  | [] => ([], [])
  | img :: more =>
      let '(blocks, failures) := image_blocks more in
      match convertToBase64 (url img) with
      | Resolved data => (image_block (media_type img) data :: blocks, failures)
      | Rejected message => (blocks, message :: failures)
      end
  end.

(** The callback of [chatContext.map]: only [null] takes the branch of
    the plain string; everything else has [.map] called on it. *)
Definition message_of (msg : Message) : promise message * list string :=
  match image msg with
  | ImageNull => (Fulfilled (mkMsg (role msg) (Plain (content msg))), [])
  | ImageUndefined => (RejectedNow TypeError_map, [])
  | ImageList imgs =>
      match image_blocks imgs with
      | (blocks, []) =>
          (Fulfilled (mkMsg (role msg)
                        (Blocks (blocks ++ [text_block (content msg)])%list)),
           [])
      | (_, failures) => (RejectedLater (first_of failures), failures)
      end
  end.

(** [await Promise.all(chatContext.map(...))]: a rejection that is there
    at once wins, in the order of the array; otherwise the first network
    failure to arrive. *)
Fixpoint all_now (ps : list (promise message * list string)) : option string :=
  match ps with
  | [] => None
  | (RejectedNow message, _) :: _ => Some message
  | _ :: more => all_now more
  end.

Fixpoint all_values (ps : list (promise message * list string))
  : list message :=
  match ps with
  | [] => []
  | (Fulfilled v, _) :: more => v :: all_values more
  | _ :: more => all_values more
  end.

Definition promise_all (ps : list (promise message * list string))
  : outcome (list message) :=
  match all_now ps with
  | Some message => Rejected message
  | None =>
      match flat_map snd ps with
      | [] => Resolved (all_values ps)
      | failures => Rejected (first_of failures)
      end
  end.

Definition modelName (model : Z) : string :=
  if (0 <? model)%Z
  then (if (model =? 1)%Z then "claude-3-7-sonnet-20250219"
        else "claude-3-5-haiku-20241022")
  else (if (model =? -1)%Z then "claude-3-7-sonnet-20250219"
        else "claude-3-7-sonnet-20250219").

Definition makeClaudeApiCall (apiKey : string) (chatContext : list Message)
    (systemMessage : string) (model maxTokens : Z) (temperature : option Q)
  : outcome Stream :=
  match promise_all (map message_of chatContext) with
  | Rejected message => Rejected ("Claude API Error: " ++ message)
  | Resolved messages =>
      let isReasoning := (model <? 0)%Z in
      match create apiKey
              (mkParams (modelName model) maxTokens (or_default temperature)
                 messages true systemMessage
                 (if isReasoning then Some 16000%Z else None)) with
      | Resolved stream => Resolved stream
      | Rejected message => Rejected ("Claude API Error: " ++ message)
      end
  end.

End Call.
End Claude.

(** *** makeOpenRouterApiCall *)

Module OpenRouter.
Import Chat.

(** The model selector of the aggregator route. *)
Record Model : Type := mkModel {
  name : string;
  type : Z
}.

Record message : Type := mkMsg {
  msg_role : string;
  msg_content : string
}.

(** The JSON body of the POST. *)
Record payload : Type := mkPayload {
  model_ : string;
  messages_ : list message;
  temperature_ : Q;
  stream_ : bool;
  include_reasoning : bool
}.

(** The call of [fetch]: URL, bearer token, body. *)
Record post : Type := mkPost {
  post_url : string;
  authorization : string;
  post_body : payload
}.

(** What the call does that can be seen from outside, in order. *)
Inductive effect : Type :=
| console_log (line : string)
| console_error (line : string)
| fetch (rq : post)
| getReader
| adapt_stream.

(** The steps that make the stream handed back to the caller:
    [response.body.getReader()] and
    [standardizeStream(asyncIteratorFromReader(reader))]. *)
Definition builds_stream (e : effect) : bool :=
  match e with
  | getReader => true
  | adapt_stream => true
  | _ => false
  end.

(** The POST sent to the aggregator. *)
Definition post_of (apiKey : string) (chatContext : list Message)
    (systemMessage : string) (model : Model) (temperature : option Q)
  : post :=
  let messages :=
    mkMsg "system" systemMessage
    :: map (fun msg => mkMsg (role msg) (content msg)) chatContext in
  let isReasoning := (type model <? 0)%Z in
  mkPost "https://openrouter.ai/api/v1/chat/completions"
    ("Bearer " ++ apiKey)
    (mkPayload (name model) messages (or_default temperature) true
       isReasoning).

Section Call.

(** The network: what the POST settles to; the body of a response is
    its reader when it has one. *)
Variable network :
  post -> outcome (Response (option (list LineReader.read_result))).

Definition makeOpenRouterApiCall (apiKey : string)
    (chatContext : list Message) (systemMessage : string) (model : Model)
    (maxTokens : Z) (temperature : option Q)
  : list effect * outcome (LineReader.iterator * string) :=
  let rq := post_of apiKey chatContext systemMessage model temperature in
  let started :=
    [console_log "Making OpenRouter API call with model: [object Object]";
     fetch rq] in
  match network rq with
  | Rejected message =>
      (started, Rejected ("OpenRouter API Error: " ++ message))
  | Resolved response =>
      if negb (ok response) then
        let failure :=
          "OpenRouter API call failed with status " ++ show (status response) in
        ((started ++ [console_error failure])%list,
         Rejected ("OpenRouter API Error: " ++ failure))
      else
        match body response with
        | None =>
            (started,
             Rejected ("OpenRouter API Error: " ++ "Response body is not readable"))
        | Some reader =>
            ((started
              ++ [getReader; adapt_stream;
                  console_log
                    "OpenRouter API call successful, returning adapted stream"])%list,
             Resolved (LineReader.asyncIteratorFromReader reader, name model))
        end
  end.

End Call.
End OpenRouter.

(** *** makeChatGPTApiCall *)

Module ChatGPT.
Import Chat OpenAIFormat.

(** The argument of [openai.chat.completions.create]. *)
Record params : Type := mkParams {
  model_ : string;
  messages_ : list message;
  stream_ : bool;
  max_completion_tokens : Z;
  temperature_ : Q
}.

Definition modelName (model : Z) : string :=
  if (model <? 0)%Z
  then (if (model =? -1)%Z then "o1" else "o3-mini")
  else (if (model =? 1)%Z then "gpt-4o" else "gpt-4o-mini").

Section Call.

(** The vendor SDK: [new OpenAI({ apiKey })] and [create] on it. *)
Variable create : string -> params -> outcome (list Normalizer.Chunk).

Definition makeChatGPTApiCall (apiKey : string) (chatContext : list Message)
    (systemMessage : list SystemBlock) (model maxTokens : Z)
    (temperature : option Q)
  : outcome (list Normalizer.event * Normalizer.ending) :=
  let messages := formatMessages chatContext systemMessage in
  match create apiKey
          (mkParams (modelName model) messages true maxTokens
             (or_default temperature)) with
  | Resolved completion => Resolved (Normalizer.standardizeStream completion)
  | Rejected message => Rejected ("ChatGPT API Error: " ++ message)
  end.

End Call.
End ChatGPT.

(** *** makeGeminiApiCall *)

Module Gemini.
Import Chat.

Inductive part : Type :=
| text_part (text_ : string)
| image_url (url_ : string).

Record entry : Type := mkEntry {
  entry_role : string;
  parts : list part
}.

(** The model obtained from [getGenerativeModel] for the key, and the
    chat session started on it. *)
Record session : Type := mkSession {
  key : string;
  model_ : string;
  systemInstruction : string;
  history : list entry
}.

Definition modelName (model : Z) : string :=
  if (0 <? model)%Z
  then (if (model =? 1)%Z then "gemini-2.0-pro-exp-02-05"
        else "gemini-2.0-flash-exp")
  else (if (model =? -1)%Z then "gemini-2.0-flash-thinking-exp"
        else "gemini-2.0-flash-thinking-exp").

(** The callback of [chatContext.map]. *)
Definition entry_of (msg : Message) : entry :=
  mkEntry (if String.eqb (role msg) "user" then "user" else "model")
    (text_part (content msg)
     :: match image msg with
        | ImageList imgs => map (fun img => image_url (url img)) imgs
        | _ => []
        end).

(** [messages[messages.length - 1].parts[0].text], or the empty string
    for an empty context. *)
Definition lastMessage (messages : list entry) : string :=
  match rev messages with
  | [] => ""
  | last :: _ =>
      match parts last with
      | text_part t :: _ => t
      | _ => ""
      end
  end.

Section Call.

(** The vendor SDK: [sendMessageStream] on the session. *)
Variable sendMessageStream :
  session -> string -> outcome (list Normalizer.Chunk).

Definition makeGeminiApiCall (apiKey : string) (chatContext : list Message)
    (systemMessage : list SystemBlock) (model maxTokens : Z)
    (temperature : option Q)
  : outcome (list Normalizer.event * Normalizer.ending) :=
  let fullSystemMessage :=
    String.concat OpenAIFormat.blank_line (map text systemMessage) in
  let messages := map entry_of chatContext in
  let chatSession :=
    mkSession apiKey (modelName model) fullSystemMessage messages in
  match sendMessageStream chatSession (lastMessage messages) with
  | Resolved stream => Resolved (Normalizer.standardizeStream stream)
  | Rejected message => Rejected ("Gemini API Error: " ++ message)
  end.

End Call.
End Gemini.

(** ** Vocabulary for the properties *)

Module Text.

(** The code unit occurs in the string. *)
Fixpoint contains (c : ascii) (s : string) : bool :=
  match s with
  | EmptyString => false
  | String a rest => Ascii.eqb a c || contains c rest
  end.

End Text.

Module Wire.
Import LineReader.

(** The [data: [DONE]] line is among the lines. *)
Fixpoint spec_ended (lines : list string) : bool :=
  match lines with
  | [] => false
  | l :: more =>
      let line := trim l in
      if prefix "data: " line then
        if String.eqb (slice_from line 6) "[DONE]" then true
        else spec_ended more
      else spec_ended more
  end.

Definition ended (payload : string) : bool := spec_ended (spec_lines payload).

End Wire.

Module FormatView.
Import Chat OpenAIFormat.

(** Reading a formatted message back: its text and the URLs of its
    image parts, in order. *)
Definition text_of (c : body_content) : list string :=
  match c with
  | Plain s => [s]
  | Parts ps =>
      flat_map (fun p => match p with text_part t => [t] | _ => [] end) ps
  end.

Definition urls_of (c : body_content) : list string :=
  match c with
  | Plain _ => []
  | Parts ps =>
      flat_map (fun p => match p with image_url u _ => [u] | _ => [] end) ps
  end.

(** The URLs of the images a chat message brings. *)
Definition image_urls (msg : Message) : list string :=
  match image msg with
  | ImageList imgs => map url imgs
  | _ => []
  end.

End FormatView.

Module ClaudeView.
Import Chat Claude.

(** A failed conversion says so. *)
Definition conversion_failure (message : string) : Prop :=
  exists detail, message = "Base64 Conversion Error: " ++ detail.

Section Call.

Variable fetch : string -> outcome (Response string).
Variable base64 : string -> string.

(** The base64 text of an image that was fetched. *)
Definition data_of (img : ImageData) : string :=
  match convertToBase64 fetch base64 (url img) with
  | Resolved data => data
  | Rejected _ => ""
  end.

(** The vendor message a chat message turns into when all its images
    are there. *)
Definition expected (msg : Message) : message :=
  mkMsg (role msg)
    match image msg with
    | ImageList imgs =>
        Blocks (map (fun img => image_block (media_type img) (data_of img)) imgs
                ++ [text_block (content msg)])%list
    | _ => Plain (content msg)
    end.

(** Every image of the message can be fetched, and the message has an
    [image] property. *)
Definition fetchable (msg : Message) : Prop :=
  match image msg with
  | ImageUndefined => False
  | ImageNull => True
  | ImageList imgs =>
      Forall (fun img => exists data,
                convertToBase64 fetch base64 (url img) = Resolved data) imgs
  end.

End Call.
End ClaudeView.

(** * Properties *)

(** ** The stream normalizer *)

Module NormalizerFacts.
Import Js Normalizer.

Lemma append_empty_r (s : string) : s ++ "" = s.
Proof. apply LineReader.append_nil_r. Qed.

Lemma or_str_left (a b : string) : a <> "" -> or_str a b = a.
Proof. destruct a; [congruence | reflexivity]. Qed.

Lemma append_nonempty (a b : string) : b <> "" -> a ++ b <> "".
Proof. destruct a; simpl; [tauto | discriminate]. Qed.

Lemma truthy_JStr (s : string) : s <> "" -> truthy (JStr s) = true.
Proof. destruct s; [congruence | reflexivity]. Qed.

(** With a populated [content] the text scanned for tags is [response]
    followed by it. *)
Lemma textsofar_content (response c other : string) :
  c <> "" ->
  or_str (or_str (response ++ c) other) "" = response ++ c.
Proof.
  intros Hc. pose proof (append_nonempty response c Hc) as Hne.
  rewrite (or_str_left _ _ Hne). apply or_str_left, Hne.
Qed.

(** The tag scan on small inputs: matches do not overlap, an unfinished
    tag does not count. *)
Example match_count_closes :
  match_count "</think>" "a</think></think>b</think" = 2.
Proof. reflexivity. Qed.

Example match_count_opens :
  match_count "<think>" "<think><<think>>" = 2.
Proof. reflexivity. Qed.

(** An absent [content] is scanned, and on an empty buffer found
    harmless, as the text "undefined". *)
Example empty_delta_on_fresh_buffer :
  process_chunk "" (delta_chunk JUndefined JUndefined) = Ok "" [].
Proof. reflexivity. Qed.

(** A choice without [delta] ends the stream with an error, after the
    events already yielded. *)
Example missing_delta_breaks_stream :
  standardizeStream
    [content_chunk "a"; mkChunk (Some [mkChoice None]) JUndefined;
     content_chunk "b"]
  = ([ContentDelta (JStr "a")], StreamProcessingError).
Proof. reflexivity. Qed.

(** A chunk in Gemini form passes its text on. *)
Example gemini_chunk :
  process_chunk "<think>" (mkChunk None (JStr "hi"))
  = Ok "<think>" [ContentDelta (JStr "hi")].
Proof. reflexivity. Qed.

Ltac first_choice chunk H :=
  destruct chunk as [cs t]; simpl in H; subst cs;
  unfold process_chunk; cbn [choices delta content reasoning_content].

(** C1, as the code has it: a chunk whose delta carries a non-empty
    [content] and a non-empty [reasoning_content] yields exactly one
    event.  When the tag balance over [response] followed by the content
    says the content is visible, it is a ContentDelta with the content
    and the reasoning text is not emitted; otherwise it is a
    ReasoningDelta with the reasoning text and the content is not
    emitted. *)
Theorem both_fields_one_event (chunk : Chunk) (more : list Choice)
    (response c r : string) :
  choices chunk = Some (mkChoice (Some (mkDelta (JStr c) (JStr r))) :: more) ->
  c <> "" -> r <> "" ->
  process_chunk response chunk =
    if visible response c
    then Ok (response ++ c) [ContentDelta (JStr c)]
    else Ok (response ++ r) [ReasoningDelta (JStr r)].
Proof.
  intros H Hc Hr. first_choice chunk H.
  cbn [to_str]. rewrite (textsofar_content response c _ Hc).
  rewrite (truthy_JStr c Hc), (truthy_JStr r Hr).
  unfold visible, isInThinkTag, isnotedgecase.
  destruct (_ <? _); destruct (_ =? _); reflexivity.
Qed.

Lemma both_fields_one_event_witness :
  process_chunk "<think>" (delta_chunk (JStr "a") (JStr "b"))
  = Ok "<think>b" [ReasoningDelta (JStr "b")].
Proof.
  apply (both_fields_one_event _ [] "<think>" "a" "b");
    [reflexivity | discriminate | discriminate].
Defined.

(** C1 as worded fails: with both fields populated and an empty
    [response], only the ContentDelta comes out. *)
Lemma both_fields_not_both_emitted :
  ~ (forall response c r, c <> "" -> r <> "" ->
     exists response' evs,
       process_chunk response (delta_chunk (JStr c) (JStr r))
         = Ok response' evs
       /\ In (ReasoningDelta (JStr r)) evs
       /\ In (ContentDelta (JStr c)) evs).
Proof.
  intros H.
  destruct (H "" "a" "b") as (response' & evs & E & Hr & _);
    try discriminate.
  vm_compute in E. injection E as _ <-.
  destruct Hr as [Hr | []]. discriminate.
Qed.

(** C2, as the code has it: for every chunk in [choices] form, from
    any buffer, the buffer [response] grows by exactly the text of the
    events emitted for it, ContentDelta and ReasoningDelta alike, and
    stays as it is when none is emitted; a chunk in Gemini form leaves
    it alone. *)
Theorem response_grows_by_emitted_text (response : string) (chunk : Chunk)
    (response' : string) (evs : list event) :
  process_chunk response chunk = Ok response' evs ->
  response' = response ++ (if has_choices chunk then texts evs else "").
Proof.
  destruct chunk as [[[|[[[c r]|]] more]|] t];
    unfold process_chunk, has_choices; cbn [choices delta content
      reasoning_content text].
  1, 4: destruct (truthy t); intros H; injection H as <- _;
    symmetry; apply append_empty_r.
  2: discriminate.
  destruct (truthy c && _ && _).
  - intros H; injection H as <- <-.
    cbn [texts fold_right event_text]. now rewrite append_empty_r.
  - destruct (truthy r || _ || _).
    + destruct (truthy r) eqn:Tr; cbn [negb app];
        intros H; injection H as <- <-;
        cbn [texts fold_right event_text]; now rewrite append_empty_r.
    + intros H; injection H as <- <-. simpl. now rewrite append_empty_r.
Qed.

Lemma response_grows_by_emitted_text_witness :
  process_chunk "<think>" (content_chunk "secret")
    = Ok "<think>secret" [ReasoningDelta (JStr "secret")]
  /\ "<think>secret" = "<think>" ++ texts [ReasoningDelta (JStr "secret")].
Proof.
  split; [reflexivity|].
  apply (response_grows_by_emitted_text "<think>" (content_chunk "secret")
           "<think>secret" [ReasoningDelta (JStr "secret")]).
  reflexivity.
Defined.

(** C2 as worded fails: the fragment ["<think>"] is classified as
    reasoning and is appended to [response] all the same. *)
Lemma reasoning_fragment_appended :
  ~ (forall response chunk response' evs,
       process_chunk response chunk = Ok response' evs ->
       response' <> response ->
       exists t, In (ContentDelta t) evs).
Proof.
  intros H.
  destruct (H "" (content_chunk "<think>") "<think>"
              [ReasoningDelta (JStr "<think>")]) as (t & Ht).
  - reflexivity.
  - discriminate.
  - destruct Ht as [Ht | []]. discriminate.
Qed.

(** C3: the fragments ["<think>"], ["secret"], ["</think>"], ["visible"],
    fed in this order to a fresh normalizer as [choices[0].delta.content]
    chunks, come out as three ReasoningDelta and one ContentDelta with
    the text ["visible"]. *)
Theorem think_block_fragments :
  standardizeStream
    [content_chunk "<think>"; content_chunk "secret";
     content_chunk "</think>"; content_chunk "visible"]
  = ([ReasoningDelta (JStr "<think>"); ReasoningDelta (JStr "secret");
      ReasoningDelta (JStr "</think>"); ContentDelta (JStr "visible")],
     Exhausted).
Proof. reflexivity. Qed.

(** C4 at its failing input: inside an open think block a chunk whose
    delta has neither field yields a ReasoningDelta whose text is
    [undefined], and the buffer grows by the nine letters "undefined". *)
Theorem empty_delta_in_think_block :
  process_chunk "<think>" (delta_chunk JUndefined JUndefined)
    = Ok "<think>undefined" [ReasoningDelta JUndefined]
  /\ standardizeStream
       [content_chunk "<think>"; delta_chunk JUndefined JUndefined]
     = ([ReasoningDelta (JStr "<think>"); ReasoningDelta JUndefined],
        Exhausted).
Proof. split; reflexivity. Qed.

(** C5, as the code has it: a chunk with a populated [content] and no
    populated [reasoning_content] yields exactly one event, which
    carries that exact text, and the text is appended to [response].
    The event is a ContentDelta when the tag balance says the fragment
    is visible (no think block is open once the fragment is counted, and
    the fragment brings no closing tag), and a ReasoningDelta
    otherwise. *)
Theorem content_only_one_event (chunk : Chunk) (more : list Choice)
    (response c : string) (r : jsval) :
  choices chunk = Some (mkChoice (Some (mkDelta (JStr c) r)) :: more) ->
  c <> "" -> truthy r = false ->
  process_chunk response chunk =
    Ok (response ++ c)
       [if visible response c then ContentDelta (JStr c)
        else ReasoningDelta (JStr c)].
Proof.
  intros H Hc Hr. first_choice chunk H.
  cbn [to_str]. rewrite (textsofar_content response c _ Hc).
  rewrite (truthy_JStr c Hc), Hr.
  unfold visible, isInThinkTag, isnotedgecase.
  destruct (_ <? _); destruct (_ =? _); reflexivity.
Qed.

Lemma content_only_one_event_witness :
  process_chunk "<think>secret</think>" (content_chunk "visible")
  = Ok "<think>secret</think>visible" [ContentDelta (JStr "visible")].
Proof.
  apply (content_only_one_event _ [] "<think>secret</think>" "visible"
           JUndefined); [reflexivity | discriminate | reflexivity].
Defined.

(** C5 as worded fails: the content-only fragment ["<think>"] yields a
    ReasoningDelta. *)
Lemma content_with_markup_not_content_delta :
  ~ (forall response c, c <> "" ->
     exists response',
       process_chunk response (content_chunk c)
         = Ok response' [ContentDelta (JStr c)]).
Proof.
  intros H. destruct (H "" "<think>") as (response' & E); [discriminate|].
  vm_compute in E. discriminate.
Qed.

End NormalizerFacts.

(** ** The aggregator line parser *)

Module LineReaderFacts.
Import LineReader.

Lemma substring_whole (s : string) : substring 0 (String.length s) s = s.
Proof. induction s as [|c s IH]; simpl; [|rewrite IH]; reflexivity. Qed.

Lemma slice_from_tail (c : ascii) (s : string) (i : nat) :
  slice_from (String c s) (S i) = slice_from s i.
Proof. reflexivity. Qed.

(** Cutting the buffer at its first line feed is cutting off the first
    line of the payload. *)
Lemma spec_lines_cut (buffer : string) :
  forall lineEnd later,
  indexOf LF buffer = Some lineEnd ->
  spec_lines (buffer ++ later)
  = slice buffer 0 lineEnd :: spec_lines (slice_from buffer (lineEnd + 1) ++ later).
Proof.
  induction buffer as [|c buffer IH]; simpl; intros lineEnd later H;
    [discriminate|].
  destruct (Ascii.eqb c LF).
  - injection H as <-. unfold slice, slice_from. simpl.
    rewrite Nat.sub_0_r, substring_whole. reflexivity.
  - destruct (indexOf LF buffer) as [j|]; [|discriminate].
    injection H as <-. rewrite (IH j later eq_refl).
    unfold slice. simpl. rewrite Nat.sub_0_r. reflexivity.
Qed.

Lemma spec_lines_none (buffer : string) :
  indexOf LF buffer = None -> spec_lines buffer = [].
Proof.
  induction buffer as [|c buffer IH]; simpl; [reflexivity|].
  destruct (Ascii.eqb c LF); [discriminate|].
  destruct (indexOf LF buffer); [discriminate|].
  intros _. rewrite IH; reflexivity.
Qed.

Example trim_both_ends :
  trim (String "009"%char (" data: x " ++ String "013"%char nl)) = "data: x".
Proof. reflexivity. Qed.

Example spec_lines_drops_open_line :
  spec_lines ("a" ++ nl ++ nl ++ "b") = ["a"; ""].
Proof. reflexivity. Qed.

(** Malformed JSON and lines without the prefix are passed over; what
    follows the [DONE] line is never looked at. *)
Example sample_stream_with_noise :
  spec_stream sample_parse
    (": ping" ++ nl ++ "data: {oops" ++ nl ++ "data:" ++ sample_object ++ nl
     ++ "  data: " ++ sample_object ++ nl ++ "data: [DONE]" ++ nl
     ++ "data: " ++ sample_object ++ nl)
  = [[("text", "a")]].
Proof. reflexivity. Qed.

Section Parser.

Variable J : Type.
Variable JSON_parse : string -> option J.

Local Abbreviation spec := (spec_stream JSON_parse).

(** The inner loop against the wire protocol: whatever text is still to
    come, leaving at the [yield] has produced the next value of the
    protocol, leaving at the [return] has reached its end, leaving at
    the [break] has skipped lines that contribute nothing. *)
Lemma drain_spec (buffer : string) :
  forall later,
  match drain JSON_parse buffer with
  | DYield parsed rest => spec (buffer ++ later) = parsed :: spec (rest ++ later)
  | DReturn => spec (buffer ++ later) = []
  | DBreak rest =>
      indexOf LF rest = None /\ spec (buffer ++ later) = spec (rest ++ later)
  end.
Proof.
  remember (String.length buffer) as n eqn:Hn.
  revert buffer Hn.
  induction n as [n IH] using lt_wf_ind; intros buffer Hn later.
  rewrite drain_eq.
  destruct (indexOf LF buffer) as [lineEnd|] eqn:found.
  - pose proof (slice_from_shorter buffer lineEnd found) as Hlt.
    specialize (IH _ ltac:(rewrite Hn; exact Hlt) _ eq_refl later).
    unfold spec_stream in *.
    rewrite (spec_lines_cut buffer lineEnd later found).
    cbn [spec_events]. cbv zeta.
    destruct (prefix _ _).
    + destruct (String.eqb _ _); [reflexivity|].
      destruct (JSON_parse _); [reflexivity | exact IH].
    + exact IH.
  - split; [assumption | reflexivity].
Qed.

Lemma read_loop_spec (values : list string) :
  forall buffer, indexOf LF buffer = None ->
  match read_loop JSON_parse buffer (map Value values) with
  | Yielded parsed rest reads =>
      exists values', reads = map Value values'
        /\ spec (buffer ++ joined values) = parsed :: spec (rest ++ joined values')
  | Returned => spec (buffer ++ joined values) = []
  | Thrown _ => False
  end.
Proof.
  induction values as [|value values IH]; intros buffer Hnone.
  - simpl. rewrite append_nil_r. unfold spec_stream.
    rewrite (spec_lines_none buffer Hnone). reflexivity.
  - cbn [map read_loop joined fold_right]. rewrite <- append_assoc.
    pose proof (drain_spec (buffer ++ value) (joined values)) as D.
    destruct (drain JSON_parse (buffer ++ value)) as [p b| |b].
    + exists values. split; [reflexivity | exact D].
    + exact D.
    + destruct D as [Hb D]. specialize (IH b Hb).
      fold (joined values). rewrite D.
      destruct (read_loop JSON_parse b (map Value values)); exact IH.
Qed.

Lemma after_yield_spec (buffer : string) (values : list string) :
  match after_yield JSON_parse buffer (map Value values) with
  | Yielded parsed rest reads =>
      exists values', reads = map Value values'
        /\ spec (buffer ++ joined values) = parsed :: spec (rest ++ joined values')
  | Returned => spec (buffer ++ joined values) = []
  | Thrown _ => False
  end.
Proof.
  unfold after_yield.
  pose proof (drain_spec buffer (joined values)) as D.
  destruct (drain JSON_parse buffer) as [p b| |b].
  - exists values. split; [reflexivity | exact D].
  - exact D.
  - destruct D as [Hb D]. rewrite D.
    pose proof (read_loop_spec values b Hb) as R.
    destruct (read_loop JSON_parse b (map Value values)); exact R.
Qed.

(** An iterator parked at a [yield] and consumed to its end delivers
    what the protocol says is left, then is done, with the reader
    cancelled once more. *)
Lemma consume_parked (n : nat) :
  forall buffer values c,
  String.length buffer + queued (map Value values) <= n ->
  consume JSON_parse (mkIterator (SuspendedYield buffer) (map Value values) c)
  = (spec (buffer ++ joined values), Done, mkIterator Completed [] (S c)).
Proof.
  induction n as [n IH] using lt_wf_ind; intros buffer values c Hn.
  rewrite consume_eq. unfold step. cbn [state pending].
  pose proof (after_yield_spec buffer values) as A.
  pose proof (after_yield_lighter J JSON_parse buffer (map Value values)) as L.
  destruct (after_yield JSON_parse buffer (map Value values))
    as [p b reads| |m]; cbn [settle].
  - destruct A as (values' & -> & A). cbn [cancelled].
    specialize (L p b _ eq_refl).
    rewrite (IH (String.length b + queued (map Value values'))); [|lia|lia].
    cbn [fst snd]. rewrite A. reflexivity.
  - rewrite A. reflexivity.
  - contradiction.
Qed.

Lemma consume_fresh (values : list string) :
  consume JSON_parse (asyncIteratorFromReader (map Value values))
  = (spec (joined values), Done, mkIterator Completed [] 1).
Proof.
  rewrite consume_eq. unfold step, asyncIteratorFromReader.
  cbn [state pending].
  pose proof (read_loop_spec values "" eq_refl) as A.
  destruct (read_loop JSON_parse "" (map Value values))
    as [p b reads| |m]; cbn [settle].
  - destruct A as (values' & -> & A). cbn [cancelled].
    rewrite (consume_parked _ b values' 0 (le_n _)).
    cbn [fst snd]. simpl in A. rewrite A. reflexivity.
  - simpl in A. rewrite A. reflexivity.
  - contradiction.
Qed.

(** C6, as the code has it: for every sequence of reads, however the
    payload is split over them, the iterator consumed to its end yields
    exactly the values of the wire protocol for the whole payload, each
    newline-terminated line being taken without the white space around
    it: the parsed payloads of the lines that then start with [data: ],
    up to the first line that then is [data: [DONE]]; lines that are
    then blank or lack the prefix, and malformed JSON, contribute
    nothing.  After that the iterator is done.  In particular the
    documented example yields the one parsed object and ends. *)
Theorem line_parser_follows_wire_protocol :
  (forall values : list string,
     consume JSON_parse (asyncIteratorFromReader (map Value values))
     = (spec (joined values), Done, mkIterator Completed [] 1))
  /\ (forall (parsed : J) (values : list string),
       JSON_parse sample_object = Some parsed ->
       joined values = sample_payload ->
       consume JSON_parse (asyncIteratorFromReader (map Value values))
       = ([parsed], Done, mkIterator Completed [] 1)).
Proof.
  split; [exact consume_fresh|].
  intros parsed values Hparse Hpayload.
  rewrite consume_fresh, Hpayload.
  unfold spec_stream.
  replace (spec_lines sample_payload)
    with ["data: " ++ sample_object; ""; "data: [DONE]"] by reflexivity.
  cbn [spec_events]. cbv zeta.
  replace (trim ("data: " ++ sample_object))
    with ("data: " ++ sample_object) by reflexivity.
  replace (prefix "data: " ("data: " ++ sample_object)) with true
    by reflexivity.
  replace (slice_from ("data: " ++ sample_object) 6) with sample_object
    by reflexivity.
  replace (String.eqb sample_object "[DONE]") with false by reflexivity.
  rewrite Hparse. reflexivity.
Qed.





(** The ways the iteration ends, one by one. *)
Lemma exhaustion_releases (values : list string) :
  let end_ := consume JSON_parse (asyncIteratorFromReader (map Value values)) in
  state (snd end_) = Completed /\ cancelled (snd end_) = 1.
Proof. simpl. rewrite consume_fresh. split; reflexivity. Qed.

Lemma read_error_releases (message : string) (reads : list read_result) :
  step JSON_parse (asyncIteratorFromReader (ReadError message :: reads)) Next
  = (mkIterator Completed [] 1, Raised message).
Proof. reflexivity. Qed.

Lemma sentinel_releases (reads : list read_result) :
  step JSON_parse
    (asyncIteratorFromReader (Value ("data: [DONE]" ++ nl) :: reads)) Next
  = (mkIterator Completed [] 1, Done).
Proof.
  unfold step, asyncIteratorFromReader. cbn [state pending read_loop].
  rewrite drain_eq. reflexivity.
Qed.




End Parser.

Lemma line_parser_follows_wire_protocol_witness :
  consume sample_parse
    (asyncIteratorFromReader
       (map Value ["data: "; sample_object ++ nl; nl ++ "data: [DO";
                   "NE]" ++ nl]))
  = ([[("text", "a")]], Done, mkIterator Completed [] 1).
Proof.
  apply (proj2 (line_parser_follows_wire_protocol _ sample_parse));
    reflexivity.
Defined.

(** C6 as worded fails: an indented line is not prefixed [data: ], and
    to the letter it is ignored; the code trims it and yields its
    payload. *)
Lemma indented_data_line_is_parsed :
  ~ (forall (J : Type) (JSON_parse : string -> option J)
            (values : list string),
       fst (fst (consume JSON_parse
                   (asyncIteratorFromReader (map Value values))))
       = worded_stream JSON_parse (joined values)).
Proof.
  intros H.
  specialize (H _ sample_parse ["  data: " ++ sample_object ++ nl]).
  vm_compute in H. discriminate.
Qed.



End LineReaderFacts.

(** ** The vendor call adapters *)

Module OpenRouterFacts.
Import Chat OpenRouter.

(** C7: when the aggregator answers with a non-success status, the call
    rejects with the status message wrapped under the vendor name, and
    nothing that makes the stream has run: no reader was taken from the
    body and no stream was adapted. *)
Theorem non_success_status_rejects
    (network : post -> outcome (Response (option (list LineReader.read_result))))
    (apiKey : string) (chatContext : list Message) (systemMessage : string)
    (model : Model) (maxTokens : Z) (temperature : option Q)
    (response : Response (option (list LineReader.read_result))) :
  network (post_of apiKey chatContext systemMessage model temperature)
    = Resolved response ->
  ok response = false ->
  exists effects,
    makeOpenRouterApiCall network apiKey chatContext systemMessage model
      maxTokens temperature
    = (effects,
       Rejected ("OpenRouter API Error: "
                 ++ "OpenRouter API call failed with status "
                 ++ show (status response)))
    /\ existsb builds_stream effects = false.
Proof.
  intros Hnet Hok. unfold makeOpenRouterApiCall.
  rewrite Hnet, Hok. cbn [negb]. cbv zeta.
  eexists. split; reflexivity.
Qed.

Lemma non_success_status_rejects_witness :
  exists effects,
    makeOpenRouterApiCall
      (fun _ => Resolved (mkResponse false 401 (Some [LineReader.Value "x"])))
      "key" [mkMessage "user" "Hello" ImageUndefined] "Be brief."
      (mkModel "deepseek/deepseek-r1" (-1)) 1000 None
    = (effects,
       Rejected "OpenRouter API Error: OpenRouter API call failed with status 401")
    /\ existsb builds_stream effects = false.
Proof.
  apply (non_success_status_rejects
           (fun _ => Resolved (mkResponse false 401 (Some [LineReader.Value "x"])))
           "key" [mkMessage "user" "Hello" ImageUndefined] "Be brief."
           (mkModel "deepseek/deepseek-r1" (-1)) 1000 None
           (mkResponse false 401 (Some [LineReader.Value "x"])));
    reflexivity.
Defined.

End OpenRouterFacts.

Module ClaudeFacts.
Import Chat Claude.

Section Call.

Variable Stream : Type.
Variable fetch : string -> outcome (Response string).
Variable base64 : string -> string.
Variable create : string -> params -> outcome Stream.
Variable TypeError_map : string.
Variable first_of : list string -> string.

Local Abbreviation message_of' :=
  (message_of fetch base64 TypeError_map first_of).

(** The only rejection raised on the spot is the TypeError. *)
Lemma rejected_now_is_TypeError (msg : Message) (m : string) :
  fst (message_of' msg) = RejectedNow m -> m = TypeError_map.
Proof.
  unfold message_of. destruct (image msg) as [| |imgs]; simpl.
  - intros H; injection H as <-; reflexivity.
  - discriminate.
  - destruct (image_blocks fetch base64 imgs) as [blocks [|f failures]];
      discriminate.
Qed.

Lemma all_now_TypeError (chatContext : list Message) :
  (exists msg, In msg chatContext /\ image msg = ImageUndefined) ->
  all_now (map message_of' chatContext) = Some TypeError_map.
Proof.
  induction chatContext as [|msg0 chatContext IH];
    intros (msg & Hin & Hundef); [contradiction|].
  cbn [map all_now].
  destruct (message_of' msg0) as [[v|m|m] failures] eqn:E.
  - destruct Hin as [-> | Hin].
    + unfold message_of in E. rewrite Hundef in E. discriminate.
    + apply IH. exists msg. split; assumption.
  - f_equal. apply (rejected_now_is_TypeError msg0). rewrite E. reflexivity.
  - destruct Hin as [-> | Hin].
    + unfold message_of in E. rewrite Hundef in E. discriminate.
    + apply IH. exists msg. split; assumption.
Qed.

(** C9: a message becomes plain string content exactly when its
    [image] is [null]; and when some message of the chat context has no
    [image] property at all, [msg.image.map] throws while the request
    is built and the whole call rejects with that TypeError wrapped as
    a Claude API Error. *)
Theorem image_must_be_null :
  (forall msg role_ s,
     fst (message_of' msg) = Fulfilled (mkMsg role_ (Plain s)) ->
     image msg = ImageNull)
  /\ (forall msg,
       image msg = ImageNull ->
       fst (message_of' msg)
       = Fulfilled (mkMsg (role msg) (Plain (content msg))))
  /\ (forall apiKey chatContext systemMessage model maxTokens temperature,
       (exists msg, In msg chatContext /\ image msg = ImageUndefined) ->
       makeClaudeApiCall Stream fetch base64 create TypeError_map first_of
         apiKey chatContext systemMessage model maxTokens temperature
       = Rejected ("Claude API Error: " ++ TypeError_map)).
Proof.
  split; [|split].
  - intros msg role_ s. unfold message_of.
    destruct (image msg) as [| |imgs]; simpl; try discriminate.
    + reflexivity.
    + destruct (image_blocks fetch base64 imgs) as [blocks [|f failures]];
        discriminate.
  - intros msg H. unfold message_of. rewrite H. reflexivity.
  - intros apiKey chatContext systemMessage model maxTokens temperature H.
    unfold makeClaudeApiCall, promise_all.
    rewrite (all_now_TypeError chatContext H). reflexivity.
Qed.

End Call.

Lemma image_must_be_null_witness :
  makeClaudeApiCall unit (fun _ => Rejected "offline") (fun bytes => bytes)
    (fun _ _ => Resolved tt)
    "Cannot read properties of undefined (reading 'map')" (hd "")
    "key"
    [mkMessage "system" "You are a helpful assistant." ImageUndefined;
     mkMessage "user" "Hello, how are you?" ImageUndefined]
    "Be brief." 1 1000 (Some (7 # 10))
  = Rejected "Claude API Error: Cannot read properties of undefined (reading 'map')".
Proof.
  apply (proj2 (proj2 (image_must_be_null unit (fun _ => Rejected "offline")
                         (fun bytes => bytes) (fun _ _ => Resolved tt)
                         "Cannot read properties of undefined (reading 'map')"
                         (hd "")))).
  exists (mkMessage "user" "Hello, how are you?" ImageUndefined).
  split; [right; left; reflexivity | reflexivity].
Defined.

End ClaudeFacts.

Module GrokFacts.
Import Chat OpenAIFormat Grok.

Lemma some_image_spec (chatContext : list Message) :
  existsb has_image chatContext = true <->
  exists msg img imgs, In msg chatContext /\ image msg = ImageList (img :: imgs).
Proof.
  rewrite existsb_exists. split.
  - intros (msg & Hin & H). unfold has_image in H.
    destruct (image msg) as [| |[|img imgs]] eqn:E; try discriminate.
    exists msg, img, imgs. split; [assumption | exact E].
  - intros (msg & img & imgs & Hin & H). exists msg. split; [assumption|].
    unfold has_image. rewrite H. reflexivity.
Qed.

(** C10: two calls that agree on the key, the chat context and the
    system message build the same client and the same request and
    settle alike, whatever [model], [maxTokens] and [temperature] they
    are given: the request holds the model name, the formatted messages
    and the stream flag only, and the model name is the vision model
    exactly when some message has a non-empty image list. *)
Theorem request_ignores_model_and_sampling
    (create : client -> params -> outcome (list Normalizer.Chunk))
    (apiKey : string) (chatContext : list Message)
    (systemMessage : list SystemBlock)
    (model1 model2 maxTokens1 maxTokens2 : Z)
    (temperature1 temperature2 : option Q) :
  request apiKey chatContext systemMessage model1 maxTokens1 temperature1
  = request apiKey chatContext systemMessage model2 maxTokens2 temperature2
  /\ makeGrokApiCall create apiKey chatContext systemMessage
       model1 maxTokens1 temperature1
     = makeGrokApiCall create apiKey chatContext systemMessage
         model2 maxTokens2 temperature2
  /\ (exists modelName,
       snd (request apiKey chatContext systemMessage model1 maxTokens1
              temperature1)
       = mkParams modelName (formatMessages chatContext systemMessage) true
       /\ ((exists msg img imgs,
              In msg chatContext /\ image msg = ImageList (img :: imgs)) ->
           modelName = "grok-2-vision-1212")
       /\ (~ (exists msg img imgs,
                In msg chatContext /\ image msg = ImageList (img :: imgs)) ->
           modelName = "grok-2-1212")).
Proof.
  split; [reflexivity|]. split; [reflexivity|].
  unfold request. cbn [snd].
  pose proof (some_image_spec chatContext) as S.
  destruct (existsb has_image chatContext); eexists; split; try reflexivity.
  - split; [reflexivity|]. intros N. exfalso. apply N, S. reflexivity.
  - split; [|reflexivity]. intros E. apply S in E. discriminate.
Qed.

End GrokFacts.

(** ** More on the stream normalizer *)

Module StreamFacts.
Import Js Normalizer Text.

Lemma populated_truthy (s : string) : s <> "" -> truthy (JStr s) = true.
Proof. destruct s; [congruence | reflexivity]. Qed.

Lemma populated_app (a b : string) : b <> "" -> a ++ b <> "".
Proof. destruct a; simpl; [tauto | discriminate]. Qed.

(** With a populated [content], the text scanned for tags is the buffer
    followed by it. *)
Lemma scanned_text (response c other : string) :
  c <> "" -> or_str (or_str (response ++ c) other) "" = response ++ c.
Proof.
  intros Hc. pose proof (populated_app response c Hc) as Hne.
  destruct (response ++ c); [congruence | reflexivity].
Qed.

(** A chunk with a populated [reasoning_content] and no populated
    [content] yields exactly one ReasoningDelta with the reasoning text,
    whatever the buffer holds, and the text is appended to the buffer. *)
Theorem reasoning_only_one_event (chunk : Chunk) (more : list Choice)
    (response r : string) (c : jsval) :
  choices chunk = Some (mkChoice (Some (mkDelta c (JStr r))) :: more) ->
  truthy c = false -> r <> "" ->
  process_chunk response chunk
  = Ok (response ++ r) [ReasoningDelta (JStr r)].
Proof.
  intros H Hc Hr. destruct chunk as [cs t]; simpl in H; subst cs.
  unfold process_chunk; cbn [choices delta content reasoning_content].
  rewrite Hc, (populated_truthy r Hr). reflexivity.
Qed.

Lemma reasoning_only_one_event_witness :
  process_chunk "answer so far"
    (delta_chunk JNull (JStr "let me think"))
  = Ok "answer so farlet me think" [ReasoningDelta (JStr "let me think")].
Proof.
  apply (reasoning_only_one_event _ [] "answer so far" "let me think" JNull);
    [reflexivity | reflexivity | discriminate].
Defined.

Lemma one_event_at_most (response : string) (chunk : Chunk)
    (response' : string) (evs : list event) :
  process_chunk response chunk = Ok response' evs -> length evs <= 1.
Proof.
  destruct chunk as [[[|[[[c r]|]] more]|] t];
    unfold process_chunk; cbn [choices delta content reasoning_content text].
  1, 4: destruct (truthy t); intros H; injection H as _ <-; simpl; lia.
  2: discriminate.
  destruct (truthy c && _ && _).
  - intros H; injection H as _ <-; simpl; lia.
  - destruct (truthy r || _ || _).
    + destruct (truthy r); cbn [negb app]; intros H; injection H as _ <-;
        simpl; lia.
    + intros H; injection H as _ <-; simpl; lia.
Qed.

(** Whatever the raw stream and the buffer, the normalizer yields at
    most one event per chunk. *)
Theorem at_most_one_event_per_chunk (stream : list Chunk) :
  forall response,
  length (fst (fst (run response stream))) <= length stream.
Proof.
  induction stream as [|chunk stream IH]; intros response; simpl; [lia|].
  destruct (process_chunk response chunk) as [response' out|] eqn:E;
    [|simpl; lia].
  apply one_event_at_most in E. specialize (IH response').
  destruct (run response' stream) as [[evs final] e]. simpl in *.
  rewrite length_app. lia.
Qed.

(** The normalizer over two streams in a row: the second is processed
    from the buffer the first leaves, unless the first broke, in which
    case nothing of the second is looked at. *)
Theorem run_app (first second : list Chunk) :
  forall response,
  run response (first ++ second)
  = match run response first with
    | (evs, buffer, Exhausted) =>
        let '(evs', final, e) := run buffer second in
        ((evs ++ evs')%list, final, e)
    | (evs, buffer, StreamProcessingError) =>
        (evs, buffer, StreamProcessingError)
    end.
Proof.
  induction first as [|chunk first IH]; intros response.
  - simpl. destruct (run response second) as [[evs final] e]. reflexivity.
  - cbn [app run].
    destruct (process_chunk response chunk) as [response' out|];
      [|reflexivity].
    rewrite IH.
    destruct (run response' first) as [[evs buffer] [|]].
    + destruct (run buffer second) as [[evs' final] e].
      rewrite app_assoc. reflexivity.
    + reflexivity.
Qed.

(** A stream of chunks in Gemini form (no [choices], or an empty
    array): every chunk with a populated [text] yields a ContentDelta
    with it, in order; no reasoning event, no error, and the buffer is
    left alone, so tags in the text are not interpreted. *)
Theorem gemini_stream_all_content (stream : list Chunk) :
  Forall (fun chunk => has_choices chunk = false) stream ->
  forall response,
  run response stream
  = (map ContentDelta (filter truthy (map text stream)), response, Exhausted).
Proof.
  induction 1 as [|chunk stream Hc _ IH]; intros response; [reflexivity|].
  cbn [run map filter].
  assert (E : process_chunk response chunk
              = if truthy (text chunk)
                then Ok response [ContentDelta (text chunk)]
                else Ok response []).
  { unfold process_chunk, has_choices in *.
    destruct (choices chunk) as [[|ch more]|]; try reflexivity.
    discriminate. }
  rewrite E. destruct (truthy (text chunk)); rewrite IH; reflexivity.
Qed.

Lemma gemini_stream_all_content_witness :
  run "" [mkChunk None (JStr "<think>"); mkChunk (Some []) (JStr "");
          mkChunk None (JStr "hi")]
  = ([ContentDelta (JStr "<think>"); ContentDelta (JStr "hi")], "", Exhausted).
Proof.
  apply (gemini_stream_all_content
           [mkChunk None (JStr "<think>"); mkChunk (Some []) (JStr "");
            mkChunk None (JStr "hi")]).
  repeat constructor.
Defined.

Lemma contains_app (c : ascii) (a b : string) :
  contains c (a ++ b) = contains c a || contains c b.
Proof.
  induction a as [|x a IH]; simpl; [reflexivity|].
  rewrite IH. apply orb_assoc.
Qed.

Lemma prefix_needs_head (a : ascii) (q s : string) :
  contains a s = false -> prefix (String a q) s = false.
Proof.
  destruct s as [|b s]; simpl; [reflexivity|].
  destruct (ascii_dec a b) as [<-|]; [|reflexivity].
  rewrite Ascii.eqb_refl. discriminate.
Qed.

(** No tag is found in a text without the code unit the tag starts
    with. *)
Lemma count_scan_without_head (a : ascii) (q s : string) :
  contains a s = false -> forall skip, count_scan (String a q) s skip = 0.
Proof.
  induction s as [|b s IH]; intros H skip; [reflexivity|].
  pose proof (prefix_needs_head a q (String b s) H) as P.
  cbn [count_scan]. rewrite P.
  simpl in H. apply orb_false_elim in H. destruct H as [_ H].
  destruct skip; apply IH, H.
Qed.

(** A fragment is emitted as content when neither it nor the buffer
    holds a [<]. *)
Lemma plain_fragment_visible (response f : string) :
  contains "<" response = false -> contains "<" f = false -> f <> "" ->
  process_chunk response (content_chunk f)
  = Ok (response ++ f) [ContentDelta (JStr f)].
Proof.
  intros Hr Hf Hne.
  unfold process_chunk, content_chunk, delta_chunk.
  cbn [choices delta content reasoning_content to_str].
  rewrite (scanned_text response f _ Hne), (populated_truthy f Hne).
  assert (Hrf : contains "<" (response ++ f) = false)
    by (rewrite contains_app, Hr, Hf; reflexivity).
  unfold match_count.
  rewrite !(count_scan_without_head "<" _ (response ++ f) Hrf).
  rewrite (count_scan_without_head "<" _ response Hr).
  reflexivity.
Qed.

(** Plain text passes through: a stream of content chunks whose
    non-empty fragments hold no [<], met with a buffer that holds none,
    comes out as one ContentDelta per fragment, with the exact text and
    in order; the buffer ends as the concatenation. *)
Theorem plain_text_passthrough (frags : list string) :
  Forall (fun f => f <> "" /\ contains "<" f = false) frags ->
  forall response, contains "<" response = false ->
  run response (map content_chunk frags)
  = (map (fun f => ContentDelta (JStr f)) frags,
     response ++ LineReader.joined frags, Exhausted).
Proof.
  induction 1 as [|f frags [Hne Hf] _ IH]; intros response Hr.
  - simpl. rewrite LineReader.append_nil_r. reflexivity.
  - cbn [map run]. rewrite (plain_fragment_visible response f Hr Hf Hne).
    rewrite IH by (rewrite contains_app, Hr, Hf; reflexivity).
    cbn [LineReader.joined fold_right]. rewrite LineReader.append_assoc.
    reflexivity.
Qed.

Lemma plain_text_passthrough_witness :
  run "" (map content_chunk ["Hello"; ", "; "world > moon"])
  = ([ContentDelta (JStr "Hello"); ContentDelta (JStr ", ");
      ContentDelta (JStr "world > moon")],
     "Hello, world > moon", Exhausted).
Proof.
  apply (plain_text_passthrough ["Hello"; ", "; "world > moon"]).
  - repeat constructor; discriminate.
  - reflexivity.
Defined.

Lemma prefix_needs_last (f : string) :
  contains ">" f = false -> forall q, prefix (q ++ ">") f = false.
Proof.
  induction f as [|b f IH]; intros H q.
  - destruct q; reflexivity.
  - simpl in H. apply orb_false_elim in H. destruct H as [Hb H].
    destruct q as [|a q]; cbn [append prefix].
    + destruct (ascii_dec ">" b) as [<-|]; [|reflexivity].
      rewrite Ascii.eqb_refl in Hb. discriminate.
    + destruct (ascii_dec a b); [apply IH, H | reflexivity].
Qed.

Lemma prefix_app_without_last (f : string) :
  contains ">" f = false ->
  forall q r, prefix (q ++ ">") (r ++ f) = prefix (q ++ ">") r.
Proof.
  intros H q r; revert q; induction r as [|b r IH]; intros q.
  - cbn [append]. rewrite (prefix_needs_last f H q).
    destruct q; reflexivity.
  - destruct q as [|a q]; cbn [append prefix].
    + destruct (ascii_dec ">" b); [|reflexivity].
      destruct (r ++ f); destruct r; reflexivity.
    + destruct (ascii_dec a b); [apply IH | reflexivity].
Qed.

Lemma count_scan_without_last (f : string) :
  contains ">" f = false ->
  forall q skip, count_scan (q ++ ">") f skip = 0.
Proof.
  induction f as [|b f IH]; intros H q skip; [reflexivity|].
  pose proof (prefix_needs_last (String b f) H q) as P.
  cbn [count_scan]. rewrite P.
  simpl in H. apply orb_false_elim in H. destruct H as [_ H].
  destruct skip; apply IH, H.
Qed.

(** A fragment without [>] cannot complete a tag: the count over the
    buffer followed by it is the count over the buffer. *)
Lemma count_scan_app_without_last (f : string) :
  contains ">" f = false ->
  forall q r skip,
  count_scan (q ++ ">") (r ++ f) skip = count_scan (q ++ ">") r skip.
Proof.
  intros H q r; induction r as [|b r IH]; intros skip.
  - cbn [append]. rewrite (count_scan_without_last f H). destruct skip;
      reflexivity.
  - change (String b r ++ f) with (String b (r ++ f)).
    cbn [count_scan].
    change (String b (r ++ f)) with (String b r ++ f).
    rewrite (prefix_app_without_last f H q (String b r)).
    destruct skip; [|apply IH].
    destruct (prefix (q ++ ">") (String b r)); rewrite IH; reflexivity.
Qed.

(** A content fragment that holds no [>] is classified by the balance
    of the buffer alone: reasoning when the buffer has more opening than
    closing tags, content otherwise. *)
Theorem fragment_without_gt_follows_balance (chunk : Chunk)
    (more : list Choice) (response c : string) (r : jsval) :
  choices chunk = Some (mkChoice (Some (mkDelta (JStr c) r)) :: more) ->
  c <> "" -> truthy r = false -> contains ">" c = false ->
  process_chunk response chunk
  = Ok (response ++ c)
       [if match_count "</think>" response <? match_count "<think>" response
        then ReasoningDelta (JStr c) else ContentDelta (JStr c)].
Proof.
  intros H Hc Hr Hgt. destruct chunk as [cs t]; simpl in H; subst cs.
  unfold process_chunk; cbn [choices delta content reasoning_content to_str].
  rewrite (scanned_text response c _ Hc), (populated_truthy c Hc), Hr.
  unfold match_count.
  pose proof (count_scan_app_without_last c Hgt "<think" response 0) as Eo.
  pose proof (count_scan_app_without_last c Hgt "</think" response 0) as Ec.
  cbn [append] in Eo, Ec. rewrite Eo, Ec, Nat.eqb_refl.
  destruct (_ <? _); reflexivity.
Qed.

Lemma fragment_without_gt_follows_balance_witness :
  process_chunk "<think>first</thin" (content_chunk "k")
  = Ok "<think>first</think" [ReasoningDelta (JStr "k")].
Proof.
  apply (fragment_without_gt_follows_balance _ [] "<think>first</thin" "k"
           JUndefined); [reflexivity | discriminate | reflexivity | reflexivity].
Defined.

End StreamFacts.

(** ** More on the aggregator line parser *)

Module IterationFacts.
Import LineReader Wire.

(** Text after the last line feed belongs to no line. *)
Lemma spec_lines_open_tail (payload tail : string) :
  indexOf LF tail = None -> spec_lines (payload ++ tail) = spec_lines payload.
Proof.
  intros H. induction payload as [|c payload IH]; simpl.
  - apply LineReaderFacts.spec_lines_none, H.
  - rewrite IH. reflexivity.
Qed.

Section Parser.

Variable J : Type.
Variable JSON_parse : string -> option J.

Local Abbreviation spec := (spec_stream JSON_parse).

(** A last line that the stream ends without terminating is never
    parsed: the iterator yields what the payload up to its last line
    feed gives, however the payload is split over the reads. *)
Theorem unterminated_tail_dropped (values : list string)
    (payload tail : string) :
  joined values = payload ++ tail -> indexOf LF tail = None ->
  consume JSON_parse (asyncIteratorFromReader (map Value values))
  = (spec payload, Done, mkIterator Completed [] 1).
Proof.
  intros Hjoin Htail. rewrite LineReaderFacts.consume_fresh, Hjoin.
  unfold spec_stream. rewrite (spec_lines_open_tail payload tail Htail).
  reflexivity.
Qed.

(** The inner loop and the [DONE] line. *)
Lemma drain_ended (buffer : string) :
  forall later,
  match drain JSON_parse buffer with
  | DYield _ rest => ended (buffer ++ later) = ended (rest ++ later)
  | DReturn => ended (buffer ++ later) = true
  | DBreak rest => ended (buffer ++ later) = ended (rest ++ later)
  end.
Proof.
  remember (String.length buffer) as n eqn:Hn.
  revert buffer Hn.
  induction n as [n IH] using lt_wf_ind; intros buffer Hn later.
  rewrite drain_eq.
  destruct (indexOf LF buffer) as [lineEnd|] eqn:found; [|reflexivity].
  pose proof (slice_from_shorter buffer lineEnd found) as Hlt.
  specialize (IH _ ltac:(rewrite Hn; exact Hlt) _ eq_refl later).
  unfold ended in *.
  rewrite (LineReaderFacts.spec_lines_cut buffer lineEnd later found).
  cbn [spec_ended]. cbv zeta.
  destruct (prefix _ _); [|exact IH].
  destruct (String.eqb _ _); [reflexivity|].
  destruct (JSON_parse _); [reflexivity | exact IH].
Qed.

(** The reads behind [values] were all used up without meeting the
    [DONE] line or a value to yield; the loop goes on with [rest]. *)
Definition ran_through (buffer : string) (values : list string)
    (rest : list read_result) : Prop :=
  spec (buffer ++ joined values) = []
  /\ ended (buffer ++ joined values) = false
  /\ exists leftover,
       indexOf LF leftover = None
       /\ read_loop JSON_parse buffer (map Value values ++ rest)%list
          = read_loop JSON_parse leftover rest.

Lemma read_loop_through (values : list string) (rest : list read_result) :
  forall buffer, indexOf LF buffer = None ->
  match read_loop JSON_parse buffer (map Value values ++ rest)%list with
  | Yielded parsed buffer' reads =>
      (exists values', reads = (map Value values' ++ rest)%list
         /\ spec (buffer ++ joined values)
            = parsed :: spec (buffer' ++ joined values')
         /\ ended (buffer ++ joined values) = ended (buffer' ++ joined values'))
      \/ ran_through buffer values rest
  | Returned =>
      (spec (buffer ++ joined values) = []
       /\ ended (buffer ++ joined values) = true)
      \/ ran_through buffer values rest
  | Thrown _ => ran_through buffer values rest
  end.
Proof.
  induction values as [|value values IH]; intros buffer Hnone.
  - assert (R : ran_through buffer [] rest).
    { unfold ran_through, ended, spec_stream. cbn [joined fold_right].
      rewrite append_nil_r, (LineReaderFacts.spec_lines_none buffer Hnone).
      repeat split. exists buffer. split; [assumption | reflexivity]. }
    cbn [map app].
    destruct (read_loop JSON_parse buffer rest); auto.
  - cbn [map app read_loop joined fold_right]. fold (joined values).
    unfold ran_through. cbn [map app read_loop joined fold_right].
    fold (joined values). rewrite <- append_assoc.
    pose proof (LineReaderFacts.drain_spec J JSON_parse (buffer ++ value)
                  (joined values)) as D.
    pose proof (drain_ended (buffer ++ value) (joined values)) as E.
    destruct (drain JSON_parse (buffer ++ value)) as [p b| |b].
    + left. exists values. repeat split; assumption.
    + left. split; assumption.
    + destruct D as [Hb D]. specialize (IH b Hb).
      rewrite D, E. unfold ran_through in IH.
      destruct (read_loop JSON_parse b (map Value values ++ rest)%list);
        exact IH.
Qed.

Lemma after_yield_through (buffer : string) (values : list string)
    (rest : list read_result) :
  match after_yield JSON_parse buffer (map Value values ++ rest)%list with
  | Yielded parsed buffer' reads =>
      (exists values', reads = (map Value values' ++ rest)%list
         /\ spec (buffer ++ joined values)
            = parsed :: spec (buffer' ++ joined values')
         /\ ended (buffer ++ joined values) = ended (buffer' ++ joined values'))
      \/ (spec (buffer ++ joined values) = []
          /\ ended (buffer ++ joined values) = false
          /\ exists leftover,
               after_yield JSON_parse buffer (map Value values ++ rest)%list
               = read_loop JSON_parse leftover rest)
  | Returned =>
      (spec (buffer ++ joined values) = []
       /\ ended (buffer ++ joined values) = true)
      \/ (spec (buffer ++ joined values) = []
          /\ ended (buffer ++ joined values) = false
          /\ exists leftover,
               after_yield JSON_parse buffer (map Value values ++ rest)%list
               = read_loop JSON_parse leftover rest)
  | Thrown _ =>
      spec (buffer ++ joined values) = []
      /\ ended (buffer ++ joined values) = false
      /\ exists leftover,
           after_yield JSON_parse buffer (map Value values ++ rest)%list
           = read_loop JSON_parse leftover rest
  end.
Proof.
  unfold after_yield.
  pose proof (LineReaderFacts.drain_spec J JSON_parse buffer (joined values))
    as D.
  pose proof (drain_ended buffer (joined values)) as E.
  destruct (drain JSON_parse buffer) as [p b| |b].
  - left. exists values. repeat split; assumption.
  - left. split; assumption.
  - destruct D as [Hb D]. rewrite D, E.
    pose proof (read_loop_through values rest b Hb) as R.
    unfold ran_through in R.
    destruct (read_loop JSON_parse b (map Value values ++ rest)%list)
      as [p b' reads| |m].
    + destruct R as [R | (S1 & S2 & b0 & _ & S3)]; [left; exact R|].
      right. repeat split; try assumption. exists b0. exact S3.
    + destruct R as [R | (S1 & S2 & b0 & _ & S3)]; [left; exact R|].
      right. repeat split; try assumption. exists b0. exact S3.
    + destruct R as (S1 & S2 & b0 & _ & S3).
      repeat split; try assumption. exists b0. exact S3.
Qed.

Lemma consume_parked_ended (n : nat) :
  forall buffer values c rest,
  String.length buffer + queued (map Value values ++ rest)%list <= n ->
  ended (buffer ++ joined values) = true ->
  consume JSON_parse
    (mkIterator (SuspendedYield buffer) (map Value values ++ rest)%list c)
  = (spec (buffer ++ joined values), Done, mkIterator Completed [] (S c)).
Proof.
  induction n as [n IH] using lt_wf_ind; intros buffer values c rest Hn He.
  rewrite consume_eq. unfold step. cbn [state pending].
  pose proof (after_yield_through buffer values rest) as A.
  pose proof (after_yield_lighter J JSON_parse buffer
                (map Value values ++ rest)%list) as L.
  destruct (after_yield JSON_parse buffer (map Value values ++ rest)%list)
    as [p b reads| |m]; cbn [settle].
  - destruct A as [(values' & -> & A1 & A2) | (_ & A2 & _)];
      [|congruence].
    cbn [cancelled]. specialize (L p b _ eq_refl).
    rewrite (IH (String.length b + queued (map Value values' ++ rest)%list));
      [|lia|lia|congruence].
    cbn [fst snd]. rewrite A1. reflexivity.
  - destruct A as [(A1 & _) | (_ & A2 & _)]; [|congruence].
    rewrite A1. reflexivity.
  - destruct A as (_ & A2 & _). congruence.
Qed.

(** Once the [DONE] line has been delivered, nothing behind it counts:
    whatever the reader still holds, more text or a failure, the
    iterator yields the values before the line and is done, the reader
    cancelled. *)
Theorem nothing_after_sentinel (values : list string)
    (rest : list read_result) :
  ended (joined values) = true ->
  consume JSON_parse (asyncIteratorFromReader (map Value values ++ rest)%list)
  = (spec (joined values), Done, mkIterator Completed [] 1).
Proof.
  intros He. rewrite consume_eq. unfold step, asyncIteratorFromReader.
  cbn [state pending].
  pose proof (read_loop_through values rest "" eq_refl) as A.
  unfold ran_through in A. cbn [append] in A.
  destruct (read_loop JSON_parse "" (map Value values ++ rest)%list)
    as [p b reads| |m]; cbn [settle].
  - destruct A as [(values' & -> & A1 & A2) | (_ & A2 & _)];
      [|congruence].
    cbn [cancelled].
    rewrite (consume_parked_ended _ b values' 0 rest (le_n _));
      [|congruence].
    cbn [fst snd]. rewrite A1. reflexivity.
  - destruct A as [(A1 & _) | (_ & A2 & _)]; [|congruence].
    rewrite A1. reflexivity.
  - destruct A as (_ & A2 & _). congruence.
Qed.

Lemma consume_parked_error (n : nat) :
  forall buffer values c message rest,
  String.length buffer
    + queued (map Value values ++ ReadError message :: rest)%list <= n ->
  consume JSON_parse
    (mkIterator (SuspendedYield buffer)
       (map Value values ++ ReadError message :: rest)%list c)
  = (spec (buffer ++ joined values),
     if ended (buffer ++ joined values) then Done else Raised message,
     mkIterator Completed [] (S c)).
Proof.
  induction n as [n IH] using lt_wf_ind;
    intros buffer values c message rest Hn.
  rewrite consume_eq. unfold step. cbn [state pending].
  pose proof (after_yield_through buffer values (ReadError message :: rest))
    as A.
  pose proof (after_yield_lighter J JSON_parse buffer
                (map Value values ++ ReadError message :: rest)%list) as L.
  destruct (after_yield JSON_parse buffer
              (map Value values ++ ReadError message :: rest)%list)
    as [p b reads| |m]; cbn [settle].
  - destruct A as [(values' & -> & A1 & A2) | (_ & _ & b0 & A3)];
      [|discriminate].
    cbn [cancelled]. specialize (L p b _ eq_refl).
    rewrite (IH (String.length b
                 + queued (map Value values' ++ ReadError message :: rest)%list));
      [|lia|lia].
    cbn [fst snd]. rewrite A1, A2. reflexivity.
  - destruct A as [(A1 & A2) | (_ & _ & b0 & A3)]; [|discriminate].
    rewrite A1, A2. reflexivity.
  - destruct A as (A1 & A2 & b0 & A3). cbn [read_loop] in A3.
    injection A3 as ->. rewrite A1, A2. reflexivity.
Qed.

(** A read that fails after some text: the values of all complete
    lines delivered before the failure are yielded first; then the
    failure is raised to the consumer, unless the [DONE] line had come,
    in which case the failing read is never made.  Either way the
    reader is cancelled. *)
Theorem read_error_after_lines (values : list string) (message : string)
    (rest : list read_result) :
  consume JSON_parse
    (asyncIteratorFromReader
       (map Value values ++ ReadError message :: rest)%list)
  = (spec (joined values),
     if ended (joined values) then Done else Raised message,
     mkIterator Completed [] 1).
Proof.
  rewrite consume_eq. unfold step, asyncIteratorFromReader.
  cbn [state pending].
  pose proof (read_loop_through values (ReadError message :: rest) ""
                eq_refl) as A.
  unfold ran_through in A. cbn [append] in A.
  destruct (read_loop JSON_parse ""
              (map Value values ++ ReadError message :: rest)%list)
    as [p b reads| |m]; cbn [settle].
  - destruct A as [(values' & -> & A1 & A2) | (_ & _ & b0 & _ & A3)];
      [|discriminate].
    cbn [cancelled].
    rewrite (consume_parked_error _ b values' 0 message rest (le_n _)).
    cbn [fst snd]. rewrite A1, A2. reflexivity.
  - destruct A as [(A1 & A2) | (_ & _ & b0 & _ & A3)]; [|discriminate].
    rewrite A1, A2. reflexivity.
  - destruct A as (A1 & A2 & b0 & _ & A3). cbn [read_loop] in A3.
    injection A3 as ->. rewrite A1, A2. reflexivity.
Qed.

Lemma completed_step (it : iterator) (rq : request) :
  state it = Completed -> fst (step JSON_parse it rq) = it.
Proof.
  destruct it as [st reads c]; simpl; intros ->. destruct rq; reflexivity.
Qed.

Lemma completed_serve (rqs : list request) :
  forall it, state it = Completed -> serve JSON_parse it rqs = it.
Proof.
  induction rqs as [|rq rqs IH]; intros it H; [reflexivity|].
  simpl. rewrite (completed_step it rq H). apply IH, H.
Qed.

Lemma serve_app (first second : list request) :
  forall it,
  serve JSON_parse it (first ++ second)
  = serve JSON_parse (serve JSON_parse it first) second.
Proof.
  induction first as [|rq first IH]; intros it; [reflexivity|].
  simpl. apply IH.
Qed.

(** A generator closed before it was ever asked for a value never runs
    its body: the reader is not cancelled and nothing is read from it,
    whatever the consumer asks afterwards. *)
Theorem unstarted_exit_never_cancels (reads : list read_result)
    (rq : request) (rqs : list request) :
  rq <> Next ->
  serve JSON_parse (asyncIteratorFromReader reads) (rq :: rqs)
  = mkIterator Completed reads 0.
Proof.
  intros H. cbn [serve].
  destruct rq as [| |message]; [congruence| |];
    unfold step, asyncIteratorFromReader; cbn [state pending cancelled fst];
    apply completed_serve; reflexivity.
Qed.

Lemma cancelled_bound (rqs : list request) :
  forall it,
  match state it with
  | Completed => cancelled it <= 1
  | _ => cancelled it = 0
  end ->
  cancelled (serve JSON_parse it rqs) <= 1.
Proof.
  induction rqs as [|rq rqs IH]; intros it H.
  - simpl. destruct (state it); lia.
  - cbn [serve]. apply IH.
    destruct it as [[|buffer|] reads c]; simpl in H.
    + subst c. destruct rq; unfold step; cbn [state pending]; try (simpl; lia).
      destruct (read_loop JSON_parse "" reads); simpl; lia.
    + subst c. destruct rq; unfold step; cbn [state pending];
        try (simpl; lia);
        destruct (after_yield JSON_parse buffer reads); simpl; lia.
    + destruct rq; simpl; exact H.
Qed.

(** Whatever the consumer asks for, and in whatever order,
    [reader.cancel()] is called at most once; and a generator that has
    finished is inert: further requests neither read nor cancel. *)
Theorem cancel_at_most_once (reads : list read_result)
    (rqs later : list request) :
  cancelled (serve JSON_parse (asyncIteratorFromReader reads) rqs) <= 1
  /\ (state (serve JSON_parse (asyncIteratorFromReader reads) rqs) = Completed ->
      serve JSON_parse (asyncIteratorFromReader reads) (rqs ++ later)
      = serve JSON_parse (asyncIteratorFromReader reads) rqs).
Proof.
  split.
  - apply cancelled_bound. reflexivity.
  - intros H. rewrite serve_app. apply completed_serve, H.
Qed.

End Parser.

Lemma unterminated_tail_dropped_witness :
  consume sample_parse
    (asyncIteratorFromReader
       (map Value ["data: " ++ sample_object ++ nl ++ "data: ";
                   sample_object]))
  = ([[("text", "a")]], Done, mkIterator Completed [] 1).
Proof.
  apply (unterminated_tail_dropped _ sample_parse
           ["data: " ++ sample_object ++ nl ++ "data: "; sample_object]
           ("data: " ++ sample_object ++ nl) ("data: " ++ sample_object));
    reflexivity.
Defined.

Lemma nothing_after_sentinel_witness :
  consume sample_parse
    (asyncIteratorFromReader
       [Value ("data: [DONE]" ++ nl ++ "data: " ++ sample_object ++ nl);
        ReadError "connection reset"])
  = ([], Done, mkIterator Completed [] 1).
Proof.
  apply (nothing_after_sentinel _ sample_parse
           ["data: [DONE]" ++ nl ++ "data: " ++ sample_object ++ nl]
           [ReadError "connection reset"]).
  reflexivity.
Defined.

Lemma cancel_at_most_once_witness :
  serve sample_parse
    (asyncIteratorFromReader [Value ("data: " ++ sample_object ++ nl)])
    ([Next; Return] ++ [Next; Throw "late"; Return])
  = serve sample_parse
      (asyncIteratorFromReader [Value ("data: " ++ sample_object ++ nl)])
      [Next; Return].
Proof.
  apply (proj2 (cancel_at_most_once _ sample_parse
                  [Value ("data: " ++ sample_object ++ nl)]
                  [Next; Return] [Next; Throw "late"; Return])).
  reflexivity.
Defined.

Lemma unstarted_exit_never_cancels_witness :
  serve sample_parse
    (asyncIteratorFromReader [Value ("data: [DONE]" ++ nl)]) [Return; Next]
  = mkIterator Completed [Value ("data: [DONE]" ++ nl)] 0.
Proof.
  apply (unstarted_exit_never_cancels _ sample_parse
           [Value ("data: [DONE]" ++ nl)] Return [Next]).
  discriminate.
Defined.

End IterationFacts.

(** ** formatMessages *)

Module FormatFacts.
Import Chat OpenAIFormat FormatView.

(** The formatted list starts with the one system message, the blocks
    of the system instruction joined by blank lines, and goes on with
    one message per chat message, in order: read back, each gives the
    role, the text and the image URLs of the chat message it came from.
    An empty context still gives the system message. *)
Theorem formatMessages_round_trip (chatContext : list Message)
    (systemMessage : list SystemBlock) :
  exists rest,
    formatMessages chatContext systemMessage
    = mkMsg "system"
        (Plain (String.concat blank_line (map text systemMessage))) :: rest
    /\ map (fun m => (msg_role m, text_of (msg_content m),
                      urls_of (msg_content m))) rest
       = map (fun msg => (role msg, [content msg], image_urls msg)) chatContext.
Proof.
  unfold formatMessages. eexists. split; [reflexivity|].
  rewrite map_map. apply map_ext. intros msg. unfold image_urls.
  destruct (image msg) as [| |[|img imgs]]; try reflexivity.
  cbn [msg_role msg_content text_of urls_of].
  rewrite !flat_map_app. cbn [flat_map app map].
  assert (T : forall l : list ImageData,
            flat_map (fun p => match p with text_part t => [t] | _ => [] end)
              (map (fun i => image_url (url i) "high") l) = []).
  { induction l as [|i l IH]; [reflexivity | exact IH]. }
  assert (U : forall l : list ImageData,
            flat_map (fun p => match p with image_url u _ => [u] | _ => [] end)
              (map (fun i => image_url (url i) "high") l) = map url l).
  { induction l as [|i l IH]; [reflexivity | simpl; rewrite IH; reflexivity]. }
  rewrite T, U, app_nil_r. reflexivity.
Qed.

(** A message is sent as a list of parts only when it brings at least
    one image; the parts are then the images, in order and each with
    detail "high", followed by the text as the last part.  A missing,
    [null] or empty image list gives the plain string. *)
Theorem formatMessages_parts (chatContext : list Message)
    (systemMessage : list SystemBlock) (m : message) :
  In m (tl (formatMessages chatContext systemMessage)) ->
  exists msg, In msg chatContext /\ msg_role m = role msg
    /\ match image msg with
       | ImageList (img :: imgs) =>
           msg_content m
           = Parts (map (fun i => image_url (url i) "high") (img :: imgs)
                    ++ [text_part (content msg)])
       | _ => msg_content m = Plain (content msg)
       end.
Proof.
  unfold formatMessages. cbn [tl]. rewrite in_map_iff.
  intros (msg & <- & Hin). exists msg. split; [assumption|].
  destruct (image msg) as [| |[|img imgs]]; split; reflexivity.
Qed.

Lemma formatMessages_parts_witness :
  exists msg,
    In msg [mkMessage "user" "What is this?"
              (ImageList [mkImage "image/png" "https://example.com/a.png"])]
    /\ "user" = role msg
    /\ match image msg with
       | ImageList (img :: imgs) =>
           Parts [image_url "https://example.com/a.png" "high";
                  text_part "What is this?"]
           = Parts (map (fun i => image_url (url i) "high") (img :: imgs)
                    ++ [text_part (content msg)])
       | _ => Parts [image_url "https://example.com/a.png" "high";
                     text_part "What is this?"]
              = Plain (content msg)
       end.
Proof.
  apply (formatMessages_parts
           [mkMessage "user" "What is this?"
              (ImageList [mkImage "image/png" "https://example.com/a.png"])]
           [mkSystemBlock "Be brief."]
           (mkMsg "user"
              (Parts [image_url "https://example.com/a.png" "high";
                      text_part "What is this?"]))).
  left. reflexivity.
Defined.

End FormatFacts.

(** ** More on the vendor call adapters *)

Module AdapterFacts.
Import Chat.

Lemma prefix_nil (s : string) : prefix "" s = true.
Proof. destruct s; reflexivity. Qed.

Lemma prefix_app (a b : string) : prefix a (a ++ b) = true.
Proof.
  induction a as [|c a IH]; cbn [append prefix]; [apply prefix_nil|].
  destruct (ascii_dec c c); [exact IH | congruence].
Qed.


(** The aggregator adapter sends role and text only: chat contexts that
    agree on these make the same call, whatever images they carry and
    whatever [maxTokens] is given. *)
Theorem openrouter_drops_images_and_maxTokens
    (network :
       OpenRouter.post ->
       outcome (Response (option (list LineReader.read_result))))
    (apiKey : string) (chatContext1 chatContext2 : list Message)
    (systemMessage : string) (model : OpenRouter.Model)
    (maxTokens1 maxTokens2 : Z) (temperature : option Q) :
  map (fun msg => (role msg, content msg)) chatContext1
  = map (fun msg => (role msg, content msg)) chatContext2 ->
  OpenRouter.makeOpenRouterApiCall network apiKey chatContext1 systemMessage
    model maxTokens1 temperature
  = OpenRouter.makeOpenRouterApiCall network apiKey chatContext2 systemMessage
      model maxTokens2 temperature.
Proof.
  intros H.
  assert (E : map (fun msg => OpenRouter.mkMsg (role msg) (content msg))
                chatContext1
              = map (fun msg => OpenRouter.mkMsg (role msg) (content msg))
                  chatContext2).
  { apply (f_equal (map (fun p => OpenRouter.mkMsg (fst p) (snd p)))) in H.
    rewrite !map_map in H. exact H. }
  unfold OpenRouter.makeOpenRouterApiCall, OpenRouter.post_of.
  rewrite E. reflexivity.
Qed.

Lemma openrouter_drops_images_and_maxTokens_witness :
  OpenRouter.makeOpenRouterApiCall
    (fun _ => Resolved (mkResponse true 200 (Some [])))
    "key"
    [mkMessage "user" "What is this?"
       (ImageList [mkImage "image/png" "https://example.com/a.png"])]
    "Be brief." (OpenRouter.mkModel "openai/gpt-4o" 1) 10 None
  = OpenRouter.makeOpenRouterApiCall
      (fun _ => Resolved (mkResponse true 200 (Some [])))
      "key" [mkMessage "user" "What is this?" ImageNull]
      "Be brief." (OpenRouter.mkModel "openai/gpt-4o" 1) 4000 None.
Proof.
  apply (openrouter_drops_images_and_maxTokens
           (fun _ => Resolved (mkResponse true 200 (Some [])))
           "key"
           [mkMessage "user" "What is this?"
              (ImageList [mkImage "image/png" "https://example.com/a.png"])]
           [mkMessage "user" "What is this?" ImageNull]
           "Be brief." (OpenRouter.mkModel "openai/gpt-4o" 1) 10 4000 None).
  reflexivity.
Defined.

End AdapterFacts.

Module ClaudeMore.
Import Chat Claude ClaudeView.

Section Call.

Variable Stream : Type.
Variable fetch : string -> outcome (Response string).
Variable base64 : string -> string.
Variable TypeError_map : string.
Variable first_of : list string -> string.

Local Abbreviation message_of' :=
  (message_of fetch base64 TypeError_map first_of).
Local Abbreviation convert := (convertToBase64 fetch base64).
Local Abbreviation blocks_of := (image_blocks fetch base64).

Lemma convert_failure (imageUrl message : string) :
  convert imageUrl = Rejected message -> conversion_failure message.
Proof.
  unfold convertToBase64.
  destruct (fetch imageUrl) as [response|m].
  - destruct (negb (ok response)); [|discriminate].
    intros H; injection H as <-. eexists; reflexivity.
  - intros H; injection H as <-. eexists; reflexivity.
Qed.

Lemma blocks_failures (imgs : list ImageData) :
  Forall conversion_failure (snd (blocks_of imgs)).
Proof.
  induction imgs as [|img imgs IH]; [constructor|].
  cbn [image_blocks]. destruct (blocks_of imgs) as [blocks failures].
  destruct (convert (url img)) as [data|m] eqn:E; cbn [snd] in *.
  - exact IH.
  - constructor; [exact (convert_failure _ _ E) | exact IH].
Qed.

Lemma blocks_some_failure (imgs : list ImageData) (img : ImageData)
    (message : string) :
  In img imgs -> convert (url img) = Rejected message ->
  snd (blocks_of imgs) <> [].
Proof.
  induction imgs as [|i imgs IH]; intros Hin E; [contradiction|].
  cbn [image_blocks]. destruct (blocks_of imgs) as [blocks failures].
  destruct Hin as [-> | Hin].
  - rewrite E. discriminate.
  - specialize (IH Hin E). cbn [snd] in IH.
    destruct (convert (url i)); cbn [snd]; [exact IH | discriminate].
Qed.

Lemma blocks_all_there (imgs : list ImageData) :
  Forall (fun img => exists data, convert (url img) = Resolved data) imgs ->
  blocks_of imgs
  = (map (fun img => image_block (media_type img) (data_of fetch base64 img))
       imgs, []).
Proof.
  induction 1 as [|img imgs [data E] _ IH]; [reflexivity|].
  cbn [image_blocks map]. rewrite IH. unfold data_of. rewrite E. reflexivity.
Qed.

Lemma failures_of (msg : Message) :
  snd (message_of' msg)
  = match image msg with
    | ImageList imgs => snd (blocks_of imgs)
    | _ => []
    end.
Proof.
  unfold message_of. destruct (image msg) as [| |imgs]; try reflexivity.
  destruct (blocks_of imgs) as [blocks [|f failures]]; reflexivity.
Qed.

Lemma no_rejection_now (chatContext : list Message) :
  (forall msg, In msg chatContext -> image msg <> ImageUndefined) ->
  all_now (map message_of' chatContext) = None.
Proof.
  induction chatContext as [|msg chatContext IH]; intros H; [reflexivity|].
  cbn [map all_now].
  assert (Hm : image msg <> ImageUndefined) by (apply H; left; reflexivity).
  assert (Hrest : all_now (map message_of' chatContext) = None)
    by (apply IH; intros m Hin; apply H; right; exact Hin).
  unfold message_of at 1.
  destruct (image msg) as [| |imgs]; [congruence | exact Hrest |].
  destruct (blocks_of imgs) as [blocks [|f failures]]; exact Hrest.
Qed.

Lemma all_failures (chatContext : list Message) :
  Forall conversion_failure (flat_map snd (map message_of' chatContext)).
Proof.
  induction chatContext as [|msg chatContext IH]; [constructor|].
  cbn [map flat_map]. apply Forall_app. split; [|exact IH].
  rewrite failures_of. destruct (image msg); try constructor.
  apply blocks_failures.
Qed.

(** When every message has an [image] property but the fetch of some
    image fails, the call rejects with a conversion failure wrapped
    under the vendor name, and the vendor is never asked: the outcome is
    the same for every behaviour of [create]. *)
Theorem claude_image_fetch_failure (apiKey : string)
    (chatContext : list Message) (systemMessage : string)
    (model maxTokens : Z) (temperature : option Q) :
  (forall failures, failures <> [] -> In (first_of failures) failures) ->
  (forall msg, In msg chatContext -> image msg <> ImageUndefined) ->
  (exists msg imgs img message,
     In msg chatContext /\ image msg = ImageList imgs /\ In img imgs
     /\ convert (url img) = Rejected message) ->
  exists detail,
    forall create : string -> params -> outcome Stream,
    makeClaudeApiCall Stream fetch base64 create TypeError_map first_of
      apiKey chatContext systemMessage model maxTokens temperature
    = Rejected ("Claude API Error: " ++ "Base64 Conversion Error: " ++ detail).
Proof.
  intros Hfirst Himg (msg & imgs & img & message & Hin & Hlist & Himg' & E).
  pose proof (all_failures chatContext) as F.
  assert (Hne : flat_map snd (map message_of' chatContext) <> []).
  { intros Hnil.
    assert (Hsub : forall f, In f (snd (message_of' msg)) -> False).
    { intros f Hf.
      assert (In f (flat_map snd (map message_of' chatContext))).
      { apply in_flat_map. exists (message_of' msg).
        split; [apply in_map, Hin | exact Hf]. }
      rewrite Hnil in H. contradiction. }
    rewrite failures_of, Hlist in Hsub.
    pose proof (blocks_some_failure imgs img message Himg' E) as Hb.
    destruct (snd (blocks_of imgs)) as [|f fs]; [congruence|].
    apply (Hsub f). left. reflexivity. }
  pose proof (Hfirst _ Hne) as Hpick.
  rewrite Forall_forall in F. destruct (F _ Hpick) as [detail Hdetail].
  exists detail. intros create.
  unfold makeClaudeApiCall, promise_all.
  rewrite (no_rejection_now chatContext Himg).
  destruct (flat_map snd (map message_of' chatContext)) as [|f fs] eqn:Efs;
    [congruence|].
  rewrite Hdetail. reflexivity.
Qed.

Lemma message_fetchable (msg : Message) :
  fetchable fetch base64 msg ->
  message_of' msg = (Fulfilled (expected fetch base64 msg), []).
Proof.
  unfold fetchable, message_of, expected.
  destruct (image msg) as [| |imgs]; [contradiction | reflexivity |].
  intros H. rewrite (blocks_all_there imgs H). reflexivity.
Qed.

Lemma promise_all_fetchable (chatContext : list Message) :
  Forall (fetchable fetch base64) chatContext ->
  promise_all first_of (map message_of' chatContext)
  = Resolved (map (expected fetch base64) chatContext).
Proof.
  intros H. unfold promise_all.
  assert (G : all_now (map message_of' chatContext) = None
              /\ flat_map snd (map message_of' chatContext) = []
              /\ all_values (map message_of' chatContext)
                 = map (expected fetch base64) chatContext).
  { induction H as [|msg chatContext Hm _ (IH1 & IH2 & IH3)];
      [repeat split|].
    cbn [map all_now flat_map all_values].
    rewrite (message_fetchable msg Hm). cbn [snd app].
    rewrite IH1, IH2, IH3. repeat split. }
  destruct G as (-> & -> & ->). reflexivity.
Qed.

(** When every message has an [image] property ([null] or a list) and
    every image can be fetched, the vendor is asked exactly once, with:
    the model of the selector, [max_tokens] and the temperature (0.7
    when left out), streaming on, the system message as given, a
    thinking budget of 16000 exactly for a negative selector, and one
    message per chat message, in order, whose content is the plain
    string for [null] and otherwise the image blocks, in the order of
    the list and with their media types, followed by the text block.
    The vendor's answer is passed on, its failure wrapped. *)
Theorem claude_request_shape (create : string -> params -> outcome Stream)
    (apiKey : string) (chatContext : list Message) (systemMessage : string)
    (model maxTokens : Z) (temperature : option Q) :
  Forall (fetchable fetch base64) chatContext ->
  makeClaudeApiCall Stream fetch base64 create TypeError_map first_of
    apiKey chatContext systemMessage model maxTokens temperature
  = match create apiKey
            (mkParams (modelName model) maxTokens (or_default temperature)
               (map (expected fetch base64) chatContext) true systemMessage
               (if (model <? 0)%Z then Some 16000%Z else None)) with
    | Resolved stream => Resolved stream
    | Rejected message => Rejected ("Claude API Error: " ++ message)
    end.
Proof.
  intros H. unfold makeClaudeApiCall.
  rewrite (promise_all_fetchable chatContext H). reflexivity.
Qed.

End Call.

Lemma claude_image_fetch_failure_witness :
  exists detail,
    forall create : string -> params -> outcome unit,
    makeClaudeApiCall unit
      (fun _ => Resolved (mkResponse false 404 "")) (fun bytes => bytes)
      create "TypeError" (hd "") "key"
      [mkMessage "user" "What is this?"
         (ImageList [mkImage "image/png" "https://example.com/a.png"])]
      "Be brief." 1 1000 None
    = Rejected ("Claude API Error: " ++ "Base64 Conversion Error: " ++ detail).
Proof.
  apply (claude_image_fetch_failure unit
           (fun _ => Resolved (mkResponse false 404 "")) (fun bytes => bytes)
           "TypeError" (hd "") "key"
           [mkMessage "user" "What is this?"
              (ImageList [mkImage "image/png" "https://example.com/a.png"])]
           "Be brief." 1 1000 None).
  - intros [|f fs] H; [congruence | left; reflexivity].
  - intros msg [<- | []]. discriminate.
  - exists (mkMessage "user" "What is this?"
              (ImageList [mkImage "image/png" "https://example.com/a.png"])),
      [mkImage "image/png" "https://example.com/a.png"],
      (mkImage "image/png" "https://example.com/a.png"),
      "Base64 Conversion Error: HTTP error! status: 404".
    repeat split; try (left; reflexivity).
Defined.

Lemma claude_request_shape_witness :
  makeClaudeApiCall params
    (fun _ => Resolved (mkResponse true 200 "PNG")) (fun bytes => bytes)
    (fun _ rq => Resolved rq) "TypeError" (hd "") "key"
    [mkMessage "user" "What is this?"
       (ImageList [mkImage "image/png" "https://example.com/a.png"]);
     mkMessage "assistant" "A picture." ImageNull]
    "Be brief." (-1) 1000 None
  = Resolved
      (mkParams "claude-3-7-sonnet-20250219" 1000 (7 # 10)
         [mkMsg "user"
            (Blocks [image_block "image/png" "PNG";
                     text_block "What is this?"]);
          mkMsg "assistant" (Plain "A picture.")]
         true "Be brief." (Some 16000%Z)).
Proof.
  apply (claude_request_shape params
           (fun _ => Resolved (mkResponse true 200 "PNG")) (fun bytes => bytes)
           "TypeError" (hd "") (fun _ rq => Resolved rq) "key"
           [mkMessage "user" "What is this?"
              (ImageList [mkImage "image/png" "https://example.com/a.png"]);
            mkMessage "assistant" "A picture." ImageNull]
           "Be brief." (-1)%Z 1000%Z None).
  repeat constructor. exists "PNG". reflexivity.
Defined.

End ClaudeMore.

Module VendorFacts.
Import Chat.

(** Every adapter built on a vendor SDK rejects under its own vendor
    name: whatever goes wrong, the message of the rejection starts with
    "Claude API Error: ", "Grok API Error: ", "Gemini API Error: " or
    "ChatGPT API Error: ". *)
Theorem adapters_wrap_failures :
  (forall Stream fetch base64 create TypeError_map first_of apiKey
          chatContext systemMessage model maxTokens temperature message,
     Claude.makeClaudeApiCall Stream fetch base64 create TypeError_map
       first_of apiKey chatContext systemMessage model maxTokens temperature
     = Rejected message ->
     prefix "Claude API Error: " message = true)
  /\ (forall create apiKey chatContext systemMessage model maxTokens
             temperature message,
       Grok.makeGrokApiCall create apiKey chatContext systemMessage model
         maxTokens temperature = Rejected message ->
       prefix "Grok API Error: " message = true)
  /\ (forall send apiKey chatContext systemMessage model maxTokens
             temperature message,
       Gemini.makeGeminiApiCall send apiKey chatContext systemMessage model
         maxTokens temperature = Rejected message ->
       prefix "Gemini API Error: " message = true)
  /\ (forall create apiKey chatContext systemMessage model maxTokens
             temperature message,
       ChatGPT.makeChatGPTApiCall create apiKey chatContext systemMessage
         model maxTokens temperature = Rejected message ->
       prefix "ChatGPT API Error: " message = true).
Proof.
  repeat split.
  - intros Stream fetch base64 create TypeError_map first_of apiKey
      chatContext systemMessage model maxTokens temperature message.
    unfold Claude.makeClaudeApiCall.
    destruct (Claude.promise_all _ _) as [messages|m].
    + destruct (create _ _) as [stream|m]; [discriminate|].
      intros H; injection H as <-. exact (AdapterFacts.prefix_app _ m).
    + intros H; injection H as <-. exact (AdapterFacts.prefix_app _ m).
  - intros create apiKey chatContext systemMessage model maxTokens
      temperature message.
    unfold Grok.makeGrokApiCall, Grok.request.
    destruct (create _ _) as [stream|m]; [discriminate|].
    intros H; injection H as <-. exact (AdapterFacts.prefix_app _ m).
  - intros send apiKey chatContext systemMessage model maxTokens
      temperature message.
    unfold Gemini.makeGeminiApiCall.
    destruct (send _ _) as [stream|m]; [discriminate|].
    intros H; injection H as <-. exact (AdapterFacts.prefix_app _ m).
  - intros create apiKey chatContext systemMessage model maxTokens
      temperature message.
    unfold ChatGPT.makeChatGPTApiCall.
    destruct (create _ _) as [stream|m]; [discriminate|].
    intros H; injection H as <-. exact (AdapterFacts.prefix_app _ m).
Qed.

Lemma adapters_wrap_failures_witness :
  prefix "Gemini API Error: " "Gemini API Error: quota exceeded" = true.
Proof.
  apply (proj1 (proj2 (proj2 adapters_wrap_failures))
           (fun _ _ => Rejected "quota exceeded") "key"
           [mkMessage "user" "Hello" ImageUndefined] [mkSystemBlock "Be brief."]
           1%Z 1000%Z None "Gemini API Error: quota exceeded").
  reflexivity.
Defined.

(** The model tables at their edges.  Claude: the haiku model exactly
    for selectors above 1, the sonnet model for all others, zero and
    the negative ones included.  Gemini: the thinking model exactly for
    selectors that are not positive, zero included.  ChatGPT: an
    o-series model exactly for negative selectors, and gpt-4o only for
    the selector 1. *)
Theorem model_tables (model : Z) :
  (Claude.modelName model
   = if (1 <? model)%Z then "claude-3-5-haiku-20241022"
     else "claude-3-7-sonnet-20250219")
  /\ (Gemini.modelName model = "gemini-2.0-flash-thinking-exp"
      <-> (model <= 0)%Z)
  /\ (ChatGPT.modelName model = "o1" \/ ChatGPT.modelName model = "o3-mini"
      <-> (model < 0)%Z)
  /\ (ChatGPT.modelName model = "gpt-4o" <-> model = 1%Z).
Proof.
  unfold Claude.modelName, Gemini.modelName, ChatGPT.modelName.
  destruct (Z.ltb_spec 0 model); destruct (Z.ltb_spec 1 model);
    destruct (Z.ltb_spec model 0); destruct (Z.eqb_spec model 1);
    destruct (Z.eqb_spec model (-1)); try lia;
    repeat split; intros; try lia; try reflexivity; try discriminate;
    try (left; reflexivity); try (right; reflexivity);
    try (match goal with H : _ \/ _ |- _ => destruct H; discriminate end).
Qed.

Lemma model_tables_witness :
  Gemini.modelName 0 = "gemini-2.0-flash-thinking-exp".
Proof.
  apply (proj2 (proj1 (proj2 (model_tables 0)))). discriminate.
Defined.

Lemma last_of_history (before : list Message) (msg : Message) :
  Gemini.lastMessage (map Gemini.entry_of (before ++ [msg])) = content msg.
Proof.
  unfold Gemini.lastMessage.
  rewrite map_app, rev_app_distr. reflexivity.
Qed.

(** What the Gemini adapter sends: the whole chat context goes into the
    history, every entry with the role "user" or "model" and its text
    as first part; the text of the last message is sent once more as
    the new message, so the vendor gets it twice.  With an empty
    context the empty string is sent on an empty history. *)
Theorem gemini_sends_last_message_twice
    (send : Gemini.session -> string -> outcome (list Normalizer.Chunk))
    (apiKey : string) (systemMessage : list SystemBlock)
    (model maxTokens : Z) (temperature : option Q) :
  (forall before msg,
     exists sess,
       Gemini.makeGeminiApiCall send apiKey (before ++ [msg]) systemMessage
         model maxTokens temperature
       = match send sess (content msg) with
         | Resolved stream => Resolved (Normalizer.standardizeStream stream)
         | Rejected message => Rejected ("Gemini API Error: " ++ message)
         end
       /\ Gemini.history sess
          = (map Gemini.entry_of before ++ [Gemini.entry_of msg])%list
       /\ Gemini.parts (Gemini.entry_of msg)
          = Gemini.text_part (content msg)
            :: map Gemini.image_url (FormatView.image_urls msg)
       /\ Forall (fun e => Gemini.entry_role e = "user"
                          \/ Gemini.entry_role e = "model")
            (Gemini.history sess))
  /\ (exists sess,
       Gemini.makeGeminiApiCall send apiKey [] systemMessage model maxTokens
         temperature
       = match send sess "" with
         | Resolved stream => Resolved (Normalizer.standardizeStream stream)
         | Rejected message => Rejected ("Gemini API Error: " ++ message)
         end
       /\ Gemini.history sess = []).
Proof.
  split.
  - intros before msg. unfold Gemini.makeGeminiApiCall.
    rewrite last_of_history. eexists. split; [reflexivity|].
    cbn [Gemini.history]. split; [apply map_app|]. split.
    + unfold Gemini.entry_of, FormatView.image_urls. cbn [Gemini.parts].
      destruct (image msg); try reflexivity.
      rewrite map_map. reflexivity.
    + apply Forall_forall. intros e He. apply in_map_iff in He.
      destruct He as (m & <- & _). unfold Gemini.entry_of.
      cbn [Gemini.entry_role].
      destruct (String.eqb (role m) "user"); [left | right]; reflexivity.
  - eexists. split; reflexivity.
Qed.

End VendorFacts.
